(** * tasks::awaitable_task and tasks::awaitable_task_system

    A shallow embedding of [engine/core/tasks/awaitable_task.hpp]:
    the type-erased task object, the mutex-protected task queue built on
    [std::forward_list], and the N+1-queue task system.

    Conventions.
    - [std::size_t] is a 64-bit unsigned integer, modelled as [Z] with the
      wrap-around written out ([wrap]).
    - A C++ call either returns, throws, calls [std::terminate], has
      undefined behaviour, or waits for another thread; this is the type
      [result]. Loops without a bound in the source take a number of
      iterations to run, and answer [OutOfFuel] past it.
    - The shared states of futures and promises live in a store
      ([gmap nat shared_state]); a [std::future] is a handle on one of them
      or has no shared state.
    - [std::forward_list] is a sequence of nodes; iterators are node
      identities, so that splicing keeps iterators attached to their nodes,
      and the preconditions of the member functions are checked. *)

From stdpp Require Import gmap strings list.
From Stdlib Require Import ZArith Lia.

Local Open Scope Z_scope.

(** ** Outcomes of C++ calls *)

Inductive future_errc :=
| broken_promise
| future_already_retrieved
| promise_already_satisfied
| no_state.

Inductive exn :=
| logic_error (what : string)
| future_error (c : future_errc)
| user_exception (code : nat).

(** The error [awaitable_task] raises on an empty task. *)
Definition BadTaskAccess : exn := logic_error "bad task access".

Inductive undefined_behaviour :=
| ub_iterator          (* an iterator outside the precondition of a member *)
| ub_empty_list        (* front / pop_front on an empty list *)
| ub_invalid_future    (* a member of a future with valid() == false *)
| ub_dangling          (* a handle on a shared state that does not exist *)
| ub_out_of_range      (* vector operator[] past the end *)
| ub_division_by_zero. (* x % 0 *)

Inductive waiting :=
| on_condition_variable
| on_future.

Inductive result (A : Type) : Type :=
| Ok (a : A)
| Throw (e : exn)
| Terminate
| Undefined (u : undefined_behaviour)
| Blocked (w : waiting)
| OutOfFuel.

Arguments Ok {A} a.
Arguments Throw {A} e.
Arguments Terminate {A}.
Arguments Undefined {A} u.
Arguments Blocked {A} w.
Arguments OutOfFuel {A}.

Definition result_bind {A B} (f : A -> result B) (r : result A) : result B :=
  match r with
  | Ok a => f a
  | Throw e => Throw e
  | Terminate => Terminate
  | Undefined u => Undefined u
  | Blocked w => Blocked w
  | OutOfFuel => OutOfFuel
  end.

#[global] Instance result_mbind : MBind result := @result_bind.
#[global] Instance result_mret : MRet result := @Ok.

(** A function declared [noexcept]: an exception that reaches its boundary
    calls [std::terminate]. *)
Definition noexcept {A} (r : result A) : result A :=
  match r with
  | Throw _ => Terminate
  | _ => r
  end.

(** ** Futures, promises and packaged tasks *)

Definition value := Z.

Inductive shared_state :=
| pending
| has_value (v : value)
| has_exception (e : exn).

Abbreviation fstore := (gmap nat shared_state).

(** A [std::future]: a handle on a shared state, or none (default
    constructed, moved from, or consumed by [get]). *)
Inductive future :=
| fut (s : nat)
| no_future.

Inductive future_status := future_ready | future_timeout.

(** [t.wait_for (0s)]: a poll of the shared state. *)
Definition wait_for_0 (σ : fstore) (t : future) : result future_status :=
  match t with
  | no_future => Undefined ub_invalid_future
  | fut s =>
      match σ !! s with
      | None => Undefined ub_dangling
      | Some pending => Ok future_timeout
      | Some _ => Ok future_ready
      end
  end.

(** [t.get ()]: waits for the shared state, then returns its value or
    rethrows its exception. *)
Definition get (σ : fstore) (t : future) : result value :=
  match t with
  | no_future => Undefined ub_invalid_future
  | fut s =>
      match σ !! s with
      | None => Undefined ub_dangling
      | Some pending => Blocked on_future
      | Some (has_value v) => Ok v
      | Some (has_exception e) => Throw e
      end
  end.

Inductive call_result :=
| returns (v : value)
| raises (e : exn).

(** [std::packaged_task <R (Args...)>]: a callable and the shared state its
    result goes to. *)
Record packaged_task := {
  callable : list value -> call_result;
  promise : option nat
}.

Definition new_state (σ : fstore) : nat := fresh (dom σ).

(** Construction of a packaged task followed by [get_future ()]. *)
Definition package (σ : fstore) (f : list value -> call_result)
  : fstore * packaged_task * future :=
  let s := new_state σ in
  (<[s := pending]> σ, {| callable := f; promise := Some s |}, fut s).

(** [_f (args...)]: runs the callable once; its value or its exception is
    stored in the shared state. *)
Definition packaged_task_call (σ : fstore) (f : packaged_task)
  (args : list value) : result fstore :=
  match promise f with
  | None => Throw (future_error no_state)
  | Some s =>
      match σ !! s with
      | None => Undefined ub_dangling
      | Some pending =>
          match callable f args with
          | returns v => Ok (<[s := has_value v]> σ)
          | raises e => Ok (<[s := has_exception e]> σ)
          end
      | Some _ => Throw (future_error promise_already_satisfied)
      end
  end.

(** ** awaitable_task *)

(** An element of the argument tuple of an awaitable task. *)
Inductive bound_arg :=
| plain (v : value)
| awaited (t : future).

Inductive task_concept :=
| ready_task_model (_f : packaged_task) (_args : list value)
| awaitable_task_model (_f : packaged_task) (_args : list bound_arg).

(** [std::unique_ptr <task_concept> _t]. *)
Record awaitable_task := { _t : option task_concept }.

Definition empty_task : awaitable_task := {| _t := None |}.

(** [operator bool]. *)
Definition has_model (t : awaitable_task) : bool :=
  match _t t with Some _ => true | None => false end.

(** [call_get]: the overload for a future is [noexcept] and calls [get]. *)
Definition call_get (σ : fstore) (a : bound_arg) : result (value * bound_arg) :=
  match a with
  | plain v => Ok (v, plain v)
  | awaited t => noexcept (v ← get σ t; Ok (v, awaited no_future))
  end.

(** The pack expansion [call_get (std::get <I> (std::move (_args)))...].
    C++ leaves the order in which the arguments of a call are evaluated
    open; they are evaluated from left to right here, and the statements
    about an invocation below are those that hold in whatever order: the
    values reach the callable in the order of the arguments, and the order
    of evaluation only decides which of several arguments that do not
    yield a value is met first ([call_get_all_rtl] is the evaluation from
    right to left). *)
Fixpoint call_get_all (σ : fstore) (args : list bound_arg)
  : result (list value * list bound_arg) :=
  match args with
  | [] => Ok ([], [])
  | a :: rest =>
      '(v, a') ← call_get σ a;
      '(vs, rest') ← call_get_all σ rest;
      Ok (v :: vs, a' :: rest')
  end.

(** The same pack expansion with its arguments evaluated from right to
    left. *)
Fixpoint call_get_all_rtl (σ : fstore) (args : list bound_arg)
  : result (list value * list bound_arg) :=
  match args with
  | [] => Ok ([], [])
  | a :: rest =>
      '(vs, rest') ← call_get_all_rtl σ rest;
      '(v, a') ← call_get σ a;
      Ok (v :: vs, a' :: rest')
  end.

(** [call_ready (T &)], the generic overload: it answers [true]. It is the
    overload [do_ready_] calls for every element of the tuple, the futures
    among them too: [do_ready_] is a [const] member, so that
    [std::get <I> (_args)] is a reference to a [const] element, which the
    overload for [std::future <T> &] below does not accept. The store is
    not looked at. *)
Definition call_ready (σ : fstore) (a : bound_arg) : result bool :=
  match a with
  | plain _ => noexcept (Ok true)
  | awaited _ => noexcept (Ok true)
  end.

(** [call_ready (std::future <T> &)]: [t.wait_for (0s) == ready]. No call
    of the source selects it. *)
Definition call_ready_future (σ : fstore) (t : future) : result bool :=
  noexcept (s ← wait_for_0 σ t;
            Ok (match s with
                | future_ready => true
                | future_timeout => false
                end)).

Fixpoint call_ready_all (σ : fstore) (args : list bound_arg)
  : result (list bool) :=
  match args with
  | [] => Ok []
  | a :: rest =>
      b ← call_ready σ a;
      bs ← call_ready_all σ rest;
      Ok (b :: bs)
  end.

(** Modelled from the spec: [nonstd::check_all_true] is declared in
    [common/nonstd/type_traits.hpp], which is not part of the sources at
    hand; it is true when every one of its arguments is. *)
Definition check_all_true (bs : list bool) : bool := forallb id bs.

(** Modelled from the spec: [nonstd::apply] is declared in
    [common/nonstd/function_traits.hpp], which is not part of the sources at
    hand; it calls its first argument with the elements of the tuple. *)
Definition apply (σ : fstore) (f : packaged_task) (args : list value)
  : result fstore :=
  packaged_task_call σ f args.

Definition do_invoke_ (σ : fstore) (f : packaged_task) (args : list bound_arg)
  : result (fstore * list bound_arg) :=
  '(vs, args') ← call_get_all σ args;
  σ' ← packaged_task_call σ f vs;
  Ok (σ', args').

Definition do_ready_ (σ : fstore) (args : list bound_arg) : result bool :=
  bs ← call_ready_all σ args;
  Ok (check_all_true bs).

(** The virtual [invoke_] of the two models. *)
Definition invoke_ (σ : fstore) (m : task_concept)
  : result (fstore * task_concept) :=
  match m with
  | ready_task_model f args =>
      σ' ← apply σ f args;
      Ok (σ', ready_task_model f args)
  | awaitable_task_model f args =>
      '(σ', args') ← do_invoke_ σ f args;
      Ok (σ', awaitable_task_model f args')
  end.

(** The virtual [ready_] of the two models, both [noexcept]. *)
Definition ready_ (σ : fstore) (m : task_concept) : result bool :=
  match m with
  | ready_task_model _ _ => noexcept (Ok true)
  | awaitable_task_model _ args => noexcept (do_ready_ σ args)
  end.

(** [awaitable_task::operator() ()]. *)
Definition invoke (σ : fstore) (t : awaitable_task)
  : result (fstore * awaitable_task) :=
  match _t t with
  | Some m =>
      '(σ', m') ← invoke_ σ m;
      Ok (σ', {| _t := Some m' |})
  | None => Throw (logic_error "bad task access")
  end.

(** [awaitable_task::ready ()]. *)
Definition ready (σ : fstore) (t : awaitable_task) : result bool :=
  match _t t with
  | Some m => ready_ σ m
  | None => Throw (logic_error "bad task access")
  end.

Definition make_ready_task (σ : fstore) (f : list value -> call_result)
  (args : list value) : fstore * awaitable_task * future :=
  let '(σ', p, out) := package σ f in
  (σ', {| _t := Some (ready_task_model p args) |}, out).

Definition make_awaitable_task (σ : fstore) (f : list value -> call_result)
  (args : list bound_arg) : fstore * awaitable_task * future :=
  let '(σ', p, out) := package σ f in
  (σ', {| _t := Some (awaitable_task_model p args) |}, out).

(** ** std::forward_list <awaitable_task> *)

(** An iterator is the node it points at, or the past-the-end value (which
    is also what [begin ()] of an empty list is). The source never asks for
    [before_begin ()]. *)
Inductive iterator :=
| at_node (n : nat)
| past_the_end.

#[global] Instance iterator_eq_dec : EqDecision iterator.
Proof. solve_decision. Defined.

Abbreviation forward_list := (list (nat * awaitable_task)).

Definition begin (l : forward_list) : iterator :=
  match l with
  | [] => past_the_end
  | (n, _) :: _ => at_node n
  end.

Definition empty (l : forward_list) : bool :=
  match l with [] => true | _ => false end.

(** The node a new element is allocated at: one that is not in the list. *)
Definition new_node (l : forward_list) : nat := S (list_max (l.*1)).

(** [split_at n l]: the elements before node [n], the element at [n] and the
    elements after it. *)
Fixpoint split_at (n : nat) (l : forward_list)
  : option (forward_list * awaitable_task * forward_list) :=
  match l with
  | [] => None
  | (m, t) :: rest =>
      if decide (m = n) then Some ([], t, rest)
      else '(pre, u, post) ← split_at n rest; Some ((m, t) :: pre, u, post)
  end.

(** [*it], for an iterator into [l]. *)
Definition deref (l : forward_list) (it : iterator) : result awaitable_task :=
  match it with
  | past_the_end => Undefined ub_iterator
  | at_node n =>
      match split_at n l with
      | Some (_, t, _) => Ok t
      | None => Undefined ub_iterator
      end
  end.

(** [++it], for an iterator into [l]. *)
Definition next (l : forward_list) (it : iterator) : result iterator :=
  match it with
  | past_the_end => Undefined ub_iterator
  | at_node n =>
      match split_at n l with
      | Some (_, _, post) => Ok (begin post)
      | None => Undefined ub_iterator
      end
  end.

Definition front (l : forward_list) : result awaitable_task :=
  match l with
  | [] => Undefined ub_empty_list
  | (_, t) :: _ => Ok t
  end.

Definition pop_front (l : forward_list) : result forward_list :=
  match l with
  | [] => Undefined ub_empty_list
  | _ :: rest => Ok rest
  end.

Definition emplace_front (l : forward_list) (t : awaitable_task)
  : forward_list * iterator :=
  let n := new_node l in ((n, t) :: l, at_node n).

(** [emplace_after (position, t)]: [position] has to be dereferenceable in
    the list (or [before_begin ()]). *)
Definition emplace_after (l : forward_list) (position : iterator)
  (t : awaitable_task) : result (forward_list * iterator) :=
  match position with
  | past_the_end => Undefined ub_iterator
  | at_node p =>
      match split_at p l with
      | Some (pre, u, post) =>
          let n := new_node l in
          Ok (pre ++ (p, u) :: (n, t) :: post, at_node n)
      | None => Undefined ub_iterator
      end
  end.

(** [erase_after (position)]: the iterator following [position] has to be
    dereferenceable. *)
Definition erase_after (l : forward_list) (position : iterator)
  : result forward_list :=
  match position with
  | past_the_end => Undefined ub_iterator
  | at_node p =>
      match split_at p l with
      | Some (pre, u, _ :: post) => Ok (pre ++ (p, u) :: post)
      | _ => Undefined ub_iterator
      end
  end.

(** [l.splice_after (position, x)]: all of [x] goes after [position], which
    has to be dereferenceable in [l] (or [before_begin ()]). Answers the two
    lists. *)
Definition splice_after (l : forward_list) (position : iterator)
  (x : forward_list) : result (forward_list * forward_list) :=
  match position with
  | past_the_end => Undefined ub_iterator
  | at_node p =>
      match split_at p l with
      | Some (pre, u, post) => Ok (pre ++ (p, u) :: x ++ post, [])
      | None => Undefined ub_iterator
      end
  end.

(** The elements of [post] before the iterator [last]. *)
Definition up_to (post : forward_list) (last : iterator)
  : option (forward_list * forward_list) :=
  match last with
  | past_the_end => Some (post, [])
  | at_node e =>
      '(mid, u, rest) ← split_at e post; Some (mid, (e, u) :: rest)
  end.

(** [l.splice_after (position, x, first, last)]: the elements of [x] in the
    open range ([first], [last]) go after [position]. *)
Definition splice_after_range (l : forward_list) (position : iterator)
  (x : forward_list) (first last : iterator)
  : result (forward_list * forward_list) :=
  match position, first with
  | at_node p, at_node f =>
      match split_at p l, split_at f x with
      | Some (pre, u, post), Some (xpre, v, xpost) =>
          match up_to xpost last with
          | Some (moved, kept) =>
              Ok (pre ++ (p, u) :: moved ++ post, xpre ++ (f, v) :: kept)
          | None => Undefined ub_iterator
          end
      | _, _ => Undefined ub_iterator
      end
  | _, _ => Undefined ub_iterator
  end.

(** ** awaitable_task_system::task_queue *)

(** The mutex and the condition variable have no state of their own here:
    whether [try_to_lock] gets the mutex is an argument of the operations
    that ask, and a wait on the condition variable is the outcome
    [Blocked on_condition_variable]. *)
Record task_queue := {
  tasks_ : forward_list;
  last_ : iterator;
  done_ : bool
}.

Definition new_task_queue : task_queue :=
  {| tasks_ := []; last_ := past_the_end; done_ := false |}.

Definition set_tasks (q : task_queue) (l : forward_list) : task_queue :=
  {| tasks_ := l; last_ := last_ q; done_ := done_ q |}.

Definition set_last (q : task_queue) (it : iterator) : task_queue :=
  {| tasks_ := tasks_ q; last_ := it; done_ := done_ q |}.

(** [rotate_with_ (side_buf)], in the source under the comment "rotates the
    first element of the list onto the end": three splices through the side
    buffer, each after a [begin ()]. *)
Definition rotate_with_ (q : task_queue) (side_buf : forward_list)
  : result (task_queue * forward_list) :=
  if empty (tasks_ q) || bool_decide (last_ q = begin (tasks_ q))
  then Ok (q, side_buf)
  else
    '(side_buf1, tasks1) ← splice_after side_buf (begin side_buf) (tasks_ q);
    '(tasks2, side_buf2) ←
      splice_after_range tasks1 (begin tasks1) side_buf1
        (begin side_buf1) past_the_end;
    let new_last := begin side_buf2 in
    '(tasks3, side_buf3) ← splice_after tasks2 (last_ q) side_buf2;
    Ok ({| tasks_ := tasks3; last_ := new_last; done_ := done_ q |}, side_buf3).

Definition set_done (q : task_queue) : task_queue :=
  {| tasks_ := tasks_ q; last_ := last_ q; done_ := true |}.

Definition try_pop (lock : bool) (q : task_queue)
  : result (task_queue * (bool * awaitable_task)) :=
  if negb lock || empty (tasks_ q) then Ok (q, (false, empty_task))
  else
    t ← front (tasks_ q);
    l ← pop_front (tasks_ q);
    Ok (set_tasks q l, (true, t)).

(** What [push] and [try_push] do once they hold the mutex. *)
Definition append (q : task_queue) (t : awaitable_task) : result task_queue :=
  if empty (tasks_ q) then
    let '(l, it) := emplace_front (tasks_ q) t in
    Ok {| tasks_ := l; last_ := begin l; done_ := done_ q |}
  else
    '(l, it) ← emplace_after (tasks_ q) (last_ q) t;
    Ok {| tasks_ := l; last_ := it; done_ := done_ q |}.

(** [try_push (t)]: the boolean tells whether [t] was moved into the
    queue. *)
Definition try_push (lock : bool) (q : task_queue) (t : awaitable_task)
  : result (task_queue * bool) :=
  if negb lock then Ok (q, false)
  else q' ← append q t; Ok (q', true).

Definition push (q : task_queue) (t : awaitable_task) : result task_queue :=
  append q t.

(** The last loop of [pop], run without the mutex: the store the [i]-th
    poll sees is [later i]; [OutOfFuel] when none of [fuel] polls finds the
    task ready. *)
Fixpoint spin_yield (later : nat -> fstore) (i fuel : nat) (t : awaitable_task)
  : result unit :=
  match fuel with
  | O => OutOfFuel
  | S fuel' =>
      r ← ready (later i) t;
      if r : bool then Ok tt else spin_yield later (S i) fuel' t
  end.

(** An iterator of [pop] points into [tasks_] or into the side buffer. *)
Definition deref2 (l side_buf : forward_list) (it : iterator)
  : result awaitable_task :=
  match deref l it with
  | Ok t => Ok t
  | _ => deref side_buf it
  end.

Definition next2 (l side_buf : forward_list) (it : iterator) : result iterator :=
  match next l it with
  | Ok i => Ok i
  | _ => next side_buf it
  end.

Inductive scanned :=
| found (q : task_queue) (t : awaitable_task)
| not_found (q : task_queue) (side_buf : forward_list).

(** The loop [for (auto lag = iter++; lag != old_last; lag = iter++)] of
    [pop], entered at [lag = iter++]. *)
Fixpoint scan (fuel : nat) (σ : fstore) (q : task_queue)
  (side_buf : forward_list) (old_last iter : iterator) : result scanned :=
  match fuel with
  | O => OutOfFuel
  | S fuel' =>
      let lag := iter in
      iter' ← next2 (tasks_ q) side_buf iter;
      if bool_decide (lag = old_last) then Ok (not_found q side_buf)
      else
        t ← deref2 (tasks_ q) side_buf iter';
        r ← ready σ t;
        if r : bool then
          let q1 := if bool_decide (last_ q = iter') then set_last q lag else q in
          l ← erase_after (tasks_ q1) lag;
          Ok (found (set_tasks q1 l) t)
        else
          '(q2, side_buf2) ← rotate_with_ q side_buf;
          scan fuel' σ q2 side_buf2 old_last iter'
  end.

(** [pop ()]: [σ] is the store while the mutex is held, [later] the stores
    the polls of the last loop see. *)
Definition pop (σ : fstore) (later : nat -> fstore) (fuel : nat)
  (q : task_queue) : result (task_queue * (bool * awaitable_task)) :=
  if empty (tasks_ q) && negb (done_ q) then Blocked on_condition_variable
  else if empty (tasks_ q) then Ok (q, (false, empty_task))
  else
    let iter := begin (tasks_ q) in
    let old_last := last_ q in
    let side_buf : forward_list := [] in
    h ← deref (tasks_ q) iter;
    r ← ready σ h;
    if r : bool then
      l ← pop_front (tasks_ q);
      Ok (set_tasks q l, (true, h))
    else
      '(q1, side_buf1) ← rotate_with_ q side_buf;
      s ← scan fuel σ q1 side_buf1 old_last iter;
      match s with
      | found q2 t => Ok (q2, (true, t))
      | not_found q2 _ =>
          t ← front (tasks_ q2);
          l ← pop_front (tasks_ q2);
          _ ← spin_yield later 0 fuel t;
          Ok (set_tasks q2 l, (true, t))
      end.

(** ** awaitable_task_system *)

(** [std::size_t] arithmetic. *)
Definition wrap (z : Z) : Z := z mod 2 ^ 64.

(** The allocator is an injected policy and is left out. [threads_] holds
    the index each worker thread was started with. *)
Record awaitable_task_system := {
  queues_ : list task_queue;
  threads_ : list Z;
  nthreads_ : Z;
  current_index_ : Z
}.

(** What the rest of the program decides: whether the [n]-th [try_to_lock]
    gets its mutex, and the store the [i]-th poll of a spinning [pop] sees. *)
Record environment := {
  try_to_lock : nat -> bool;
  later : nat -> fstore
}.

(** The task system, the store of shared states, the number of
    [try_to_lock] calls made so far and (a ghost) the tasks invoked so far. *)
Record world := {
  sys : awaitable_task_system;
  store : fstore;
  clock : nat;
  invoked : list awaitable_task
}.

Definition set_sys (w : world) (s : awaitable_task_system) : world :=
  {| sys := s; store := store w; clock := clock w; invoked := invoked w |}.

Definition set_store (w : world) (σ : fstore) : world :=
  {| sys := sys w; store := σ; clock := clock w; invoked := invoked w |}.

Definition tick (w : world) : world :=
  {| sys := sys w; store := store w; clock := S (clock w); invoked := invoked w |}.

Definition set_queue (w : world) (i : Z) (q : task_queue) : world :=
  set_sys w {| queues_ := <[Z.to_nat i := q]> (queues_ (sys w));
               threads_ := threads_ (sys w);
               nthreads_ := nthreads_ (sys w);
               current_index_ := current_index_ (sys w) |}.

(** [queues_ [i].op (...)]. *)
Definition at_queue {A} (w : world) (i : Z)
  (op : task_queue -> result (task_queue * A)) : result (world * A) :=
  match queues_ (sys w) !! Z.to_nat i with
  | None => Undefined ub_out_of_range
  | Some q => '(q', a) ← op q; Ok (set_queue w i q', a)
  end.

Definition queue_try_push (env : environment) (w : world) (i : Z)
  (t : awaitable_task) : result (world * bool) :=
  at_queue (tick w) i (λ q, try_push (try_to_lock env (clock w)) q t).

Definition queue_try_pop (env : environment) (w : world) (i : Z)
  : result (world * (bool * awaitable_task)) :=
  at_queue (tick w) i (try_pop (try_to_lock env (clock w))).

Definition queue_push (w : world) (i : Z) (t : awaitable_task) : result world :=
  '(w', _) ← at_queue w i (λ q, q' ← push q t; Ok (q', tt));
  Ok w'.

Definition queue_pop (env : environment) (fuel : nat) (w : world) (i : Z)
  : result (world * (bool * awaitable_task)) :=
  at_queue w i (pop (store w) (later env) fuel).

(** [p.second ()]. *)
Definition call_task (w : world) (t : awaitable_task) : result world :=
  '(σ', _) ← invoke (store w) t;
  Ok {| sys := sys w; store := σ'; clock := clock w;
        invoked := invoked w ++ [t] |}.

Definition get_thread_queue_idx (s : awaitable_task_system) (idx seed : Z)
  : result Z :=
  if decide (nthreads_ s = 0) then Undefined ub_division_by_zero
  else Ok (wrap (wrap (idx + seed) mod nthreads_ s + 1)).

Definition get_main_thread_queue_idx : Z := 0.

(** The constructor: the main queue, then one queue and one thread for each
    [th] from 1 while [th < nthreads + 1]. *)
Definition awaitable_task_system_new (nthreads : Z) : awaitable_task_system :=
  let n := Z.to_nat (wrap (nthreads + 1) - 1) in
  {| queues_ := new_task_queue :: replicate n new_task_queue;
     threads_ := (λ th, Z.of_nat (S th)) <$> seq 0 n;
     nthreads_ := nthreads;
     current_index_ := 1 |}.

Definition done (s : awaitable_task_system) : awaitable_task_system :=
  {| queues_ := set_done <$> queues_ s;
     threads_ := threads_ s;
     nthreads_ := nthreads_ s;
     current_index_ := current_index_ s |}.

(** [auto const idx = current_index_++]. *)
Definition next_index (w : world) : Z * world :=
  let idx := current_index_ (sys w) in
  (idx, set_sys w {| queues_ := queues_ (sys w);
                     threads_ := threads_ (sys w);
                     nthreads_ := nthreads_ (sys w);
                     current_index_ := wrap (idx + 1) |}).

(** The loop [for (k = ...; k < ...; ++k)] of the worker-targeted
    submissions, with [n] iterations left. *)
Fixpoint try_push_ring (env : environment) (n : nat) (k idx : Z)
  (t : awaitable_task) (w : world) : result (world * bool) :=
  match n with
  | O => Ok (w, false)
  | S n' =>
      queue_index ← get_thread_queue_idx (sys w) idx k;
      '(w', pushed) ← queue_try_push env w queue_index t;
      if pushed : bool then Ok (w', true)
      else try_push_ring env n' (wrap (k + 1)) idx t w'
  end.

(** The same loop of the submissions to the main queue. *)
Fixpoint try_push_main (env : environment) (n : nat) (t : awaitable_task)
  (w : world) : result (world * bool) :=
  match n with
  | O => Ok (w, false)
  | S n' =>
      '(w', pushed) ← queue_try_push env w get_main_thread_queue_idx t;
      if pushed : bool then Ok (w', true)
      else try_push_main env n' t w'
  end.

(** The part the three worker-targeted submissions share once the task is
    made. *)
Definition dispatch (env : environment) (t : awaitable_task) (w : world)
  : result world :=
  let '(idx, w1) := next_index w in
  '(w2, pushed) ←
    try_push_ring env (Z.to_nat (wrap (10 * nthreads_ (sys w1)))) 0 idx t w1;
  if pushed : bool then Ok w2
  else
    queue_index ← get_thread_queue_idx (sys w2) idx 0;
    queue_push w2 queue_index t.

Definition push_ready_on_main (env : environment) (w : world)
  (f : list value -> call_result) (args : list value)
  : result (world * future) :=
  let '(σ, t, out) := make_ready_task (store w) f args in
  let w0 := set_store w σ in
  let queue_index := get_main_thread_queue_idx in
  '(w1, pushed) ←
    try_push_main env (Z.to_nat (wrap (10 * nthreads_ (sys w0)))) t w0;
  if pushed : bool then Ok (w1, out)
  else w2 ← queue_push w1 queue_index t; Ok (w2, out).

Definition push_awaitable_on_main (env : environment) (w : world)
  (f : list value -> call_result) (args : list bound_arg)
  : result (world * future) :=
  let '(σ, t, out) := make_awaitable_task (store w) f args in
  let w0 := set_store w σ in
  let queue_index := get_main_thread_queue_idx in
  '(w1, pushed) ← try_push_main env 10 t w0;
  if pushed : bool then Ok (w1, out)
  else w2 ← queue_push w1 queue_index t; Ok (w2, out).

(** [push_awaitable_on_main (awaitable_task && t)]. *)
Definition push_awaitable_on_main_task (env : environment) (w : world)
  (t : awaitable_task) : result world :=
  let queue_index := get_main_thread_queue_idx in
  '(w1, pushed) ← try_push_main env 10 t w;
  if pushed : bool then Ok w1
  else queue_push w1 queue_index t.

Definition push_ready (env : environment) (w : world)
  (f : list value -> call_result) (args : list value)
  : result (world * future) :=
  if decide (nthreads_ (sys w) = 0) then push_ready_on_main env w f args
  else
    let '(σ, t, out) := make_ready_task (store w) f args in
    w' ← dispatch env t (set_store w σ);
    Ok (w', out).

Definition push_awaitable (env : environment) (w : world)
  (f : list value -> call_result) (args : list bound_arg)
  : result (world * future) :=
  if decide (nthreads_ (sys w) = 0) then push_awaitable_on_main env w f args
  else
    let '(σ, t, out) := make_awaitable_task (store w) f args in
    w' ← dispatch env t (set_store w σ);
    Ok (w', out).

(** [push_awaitable (awaitable_task && t)]. *)
Definition push_awaitable_task (env : environment) (w : world)
  (t : awaitable_task) : result world :=
  if decide (nthreads_ (sys w) = 0) then push_awaitable_on_main_task env w t
  else dispatch env t w.

(** The [try_pop] loop of [run_on_main], with [n] iterations left. *)
Fixpoint try_pop_main (env : environment) (n : nat) (w : world)
  : result (world * (bool * awaitable_task)) :=
  match n with
  | O => Ok (w, (false, empty_task))
  | S n' =>
      '(w', p) ← queue_try_pop env w get_main_thread_queue_idx;
      if fst p : bool then Ok (w', p) else try_pop_main env n' w'
  end.

(** The [try_pop] loop of [run], with [n] iterations left. *)
Fixpoint try_pop_ring (env : environment) (n : nat) (k idx : Z) (w : world)
  : result (world * (bool * awaitable_task)) :=
  match n with
  | O => Ok (w, (false, empty_task))
  | S n' =>
      queue_index ← get_thread_queue_idx (sys w) idx k;
      '(w', p) ← queue_try_pop env w queue_index;
      if fst p : bool then Ok (w', p)
      else try_pop_ring env n' (wrap (k + 1)) idx w'
  end.

Definition run_on_main (env : environment) (fuel : nat) (w : world)
  : result world :=
  let queue_index := get_main_thread_queue_idx in
  '(w1, p) ← try_pop_main env 10 w;
  '(w2, p2) ←
    (if fst p : bool then Ok (w1, p) else queue_pop env fuel w1 queue_index);
  if fst p2 : bool then call_task w2 (snd p2) else Ok w2.

(** The worker loop, [while (true)] cut at [fuel] rounds. *)
Fixpoint run (env : environment) (fuel : nat) (idx : Z) (w : world)
  : result world :=
  match fuel with
  | O => OutOfFuel
  | S fuel' =>
      '(w1, p) ←
        try_pop_ring env (Z.to_nat (wrap (10 * nthreads_ (sys w)))) 0 idx w;
      '(w2, p2) ←
        (if fst p : bool then Ok (w1, p) else queue_pop env fuel' w1 idx);
      if fst p2 : bool then w3 ← call_task w2 (snd p2); run env fuel' idx w3
      else Ok w2
  end.

(** * Predicates of the statements *)

(** How a call fails, whatever it would have answered. *)
Inductive failure :=
| throws (e : exn)
| terminates
| undefined (u : undefined_behaviour)
| blocks (w : waiting)
| out_of_fuel.

Definition failure_of {A} (r : result A) : option failure :=
  match r with
  | Ok _ => None
  | Throw e => Some (throws e)
  | Terminate => Some terminates
  | Undefined u => Some (undefined u)
  | Blocked w => Some (blocks w)
  | OutOfFuel => Some out_of_fuel
  end.

(** A bound argument that [get] does not wait for. *)
Definition resolved (σ : fstore) (a : bound_arg) : Prop :=
  match a with
  | plain _ => True
  | awaited t => ∃ s st, t = fut s ∧ σ !! s = Some st ∧ st ≠ pending
  end.

(** A bound argument that is a future holding an exception. *)
Definition failed (σ : fstore) (a : bound_arg) : Prop :=
  match a with
  | plain _ => False
  | awaited t => ∃ s e, t = fut s ∧ σ !! s = Some (has_exception e)
  end.

(** The callable [λ x. x] of scenario S3. *)
Definition identity_callable (xs : list value) : call_result :=
  match xs with
  | x :: _ => returns x
  | [] => returns 0
  end.

(** The tail cursor of a queue points at the last element of the sequence,
    and no node is in the sequence twice. *)
Definition queue_ok (q : task_queue) : Prop :=
  NoDup (tasks_ q).*1
  ∧ match last (tasks_ q) with
    | Some (n, _) => last_ q = at_node n
    | None => True
    end.

(** A task system as its constructor and its members leave it: N + 1
    queues, each with its tail cursor in place. A vector of N + 1 queues
    fits the address space, so that 10 N does not wrap. *)
Definition system_ok (s : awaitable_task_system) : Prop :=
  0 ≤ nthreads_ s
  ∧ 10 * nthreads_ s < 2 ^ 64
  ∧ Z.of_nat (length (queues_ s)) = nthreads_ s + 1
  ∧ Forall queue_ok (queues_ s)
  ∧ 0 ≤ current_index_ s < 2 ^ 64.

(** Between [s] and [s'] the task [t] went to the end of queue [i], and
    nothing else happened to the queues. *)
Definition enqueued_at (i : Z) (t : awaitable_task)
  (s s' : awaitable_task_system) : Prop :=
  ∃ q q',
    queues_ s !! Z.to_nat i = Some q
    ∧ queues_ s' = <[Z.to_nat i := q']> (queues_ s)
    ∧ (tasks_ q').*2 = (tasks_ q).*2 ++ [t]
    ∧ done_ q' = done_ q
    ∧ queue_ok q'
    ∧ threads_ s' = threads_ s
    ∧ nthreads_ s' = nthreads_ s.

(** Following the words of the specification: the first of [n] attempts,
    numbered from [c] on, that gets its mutex. *)
Fixpoint first_success (try : nat -> bool) (n c : nat) : option nat :=
  match n with
  | O => None
  | S n' => if try c then Some c else first_success try n' (S c)
  end.

(** Following the words of the specification: the queue a worker-targeted
    submission ends in. The attempt [k] is made on queue
    [((idx + k) mod N) + 1], the sum being one of [std::size_t]; when all
    10 N attempts fail the queue is [(idx mod N) + 1]. *)
Definition ring_queue (N idx k : Z) : Z := wrap (idx + k) mod N + 1.

Definition dispatch_queue (env : environment) (w : world) : Z :=
  let N := nthreads_ (sys w) in
  let idx := current_index_ (sys w) in
  match first_success (try_to_lock env) (Z.to_nat (10 * N)) (clock w) with
  | Some c => ring_queue N idx (Z.of_nat (c - clock w))
  | None => idx mod N + 1
  end.

(** A call that does not end in a remainder by zero. *)
Definition modulus_nonzero {A} (r : result A) : Prop :=
  failure_of r ≠ Some (undefined ub_division_by_zero).

(** The world right after the construction of a task system. *)
Definition world_new (nthreads : Z) : world :=
  {| sys := awaitable_task_system_new nthreads;
     store := ∅; clock := 0; invoked := [] |}.

(** Scenario S2 of the specification: A is awaitable on a future that is
    not ready, B is ready and returns 7; they are pushed in this order. *)
Definition S2_store0 : fstore := {[ 0%nat := pending ]}.

Definition S2_A : fstore * awaitable_task * future :=
  make_awaitable_task S2_store0 identity_callable [awaited (fut 0)].

Definition S2_B : fstore * awaitable_task * future :=
  make_ready_task S2_A.1.1 (λ _, returns 7) [].

Definition S2_store : fstore := S2_B.1.1.

Definition S2_queue : result task_queue :=
  q ← push new_task_queue S2_A.1.2; push q S2_B.1.2.

(** Scenario S3: a future that holds the exception 7. *)
Definition S3_store0 : fstore := {[ 0%nat := has_exception (user_exception 7) ]}.

Definition S3_task : fstore * awaitable_task * future :=
  make_awaitable_task S3_store0 identity_callable [awaited (fut 0)].

(** A system without workers after [done ()]. *)
Definition world_done : world :=
  {| sys := done (awaitable_task_system_new 0);
     store := ∅; clock := 0; invoked := [] |}.

(** The rest of the program holds every mutex during the first [n]
    attempts, and leaves the store empty. *)
Definition busy_env (n : nat) : environment :=
  {| try_to_lock := λ c, (n <=? c)%nat; later := λ _, ∅ |}.

(** [push] of each task of [ts], in turn. *)
Fixpoint push_all (q : task_queue) (ts : list awaitable_task)
  : result task_queue :=
  match ts with
  | [] => Ok q
  | t :: ts' => q' ← push q t; push_all q' ts'
  end.

(** Up to [n] calls of [try_pop] that get the mutex, until one answers
    [false]; the tasks answered, in order. *)
Fixpoint try_pop_all (n : nat) (q : task_queue)
  : result (task_queue * list awaitable_task) :=
  match n with
  | O => Ok (q, [])
  | S n' =>
      '(q', p) ← try_pop true q;
      if fst p : bool then
        '(q'', ts) ← try_pop_all n' q'; Ok (q'', snd p :: ts)
      else Ok (q', [])
  end.

(** The same with the blocking [pop]. *)
Fixpoint pop_all (σ : fstore) (later : nat -> fstore) (fuel n : nat)
  (q : task_queue) : result (task_queue * list awaitable_task) :=
  match n with
  | O => Ok (q, [])
  | S n' =>
      '(q', p) ← pop σ later fuel q;
      if fst p : bool then
        '(q'', ts) ← pop_all σ later fuel n' q'; Ok (q'', snd p :: ts)
      else Ok (q', [])
  end.

(** The values the callable of an awaitable task is called with when every
    future among its bound arguments holds a value. *)
Fixpoint arg_values (σ : fstore) (args : list bound_arg)
  : option (list value) :=
  match args with
  | [] => Some []
  | plain v :: rest => vs ← arg_values σ rest; Some (v :: vs)
  | awaited (fut s) :: rest =>
      match σ !! s with
      | Some (has_value v) => vs ← arg_values σ rest; Some (v :: vs)
      | _ => None
      end
  | awaited no_future :: _ => None
  end.

Definition is_awaited (a : bound_arg) : bool :=
  match a with plain _ => false | awaited _ => true end.

(** A bound argument once [invoke] has moved it out: a future has been
    consumed by [get]. *)
Definition consumed (a : bound_arg) : bound_arg :=
  match a with
  | plain v => plain v
  | awaited _ => awaited no_future
  end.

(** The packaged task of a model. *)
Definition packaged (m : task_concept) : packaged_task :=
  match m with
  | ready_task_model f _ | awaitable_task_model f _ => f
  end.

(** The rest of the program never holds a mutex. *)
Definition free_env : environment :=
  {| try_to_lock := λ _, true; later := λ _, ∅ |}.

(** Queues of the tasks of scenario S2: A alone, B alone, B twice. *)
Definition S2_queue_A : task_queue :=
  {| tasks_ := [(1%nat, S2_A.1.2)]; last_ := at_node 1; done_ := false |}.

Definition S2_queue_B : task_queue :=
  {| tasks_ := [(1%nat, S2_B.1.2)]; last_ := at_node 1; done_ := false |}.

Definition S2_queue_BB : task_queue :=
  {| tasks_ := [(1%nat, S2_B.1.2); (2%nat, S2_B.1.2)];
     last_ := at_node 2; done_ := false |}.


(** The queue of scenario S2 once both tasks are pushed. *)
Definition S2_queue_AB : task_queue :=
  {| tasks_ := [(1%nat, S2_A.1.2); (2%nat, S2_B.1.2)];
     last_ := at_node 2; done_ := false |}.

(** C is ready and returns 8; its promise comes after the one of B. *)
Definition S2_C : fstore * awaitable_task * future :=
  make_ready_task S2_store (λ _, returns 8) [].

Definition S2_queue_C : task_queue :=
  {| tasks_ := [(1%nat, S2_C.1.2)]; last_ := at_node 1; done_ := false |}.

(** One worker; the main queue holds B and the queue of the worker holds
    C; [done ()] has been called. *)
Definition world_busy : world :=
  {| sys := {| queues_ := [set_done S2_queue_B; set_done S2_queue_C];
               threads_ := [1]; nthreads_ := 1; current_index_ := 1 |};
     store := S2_C.1.1; clock := 0; invoked := [] |}.

(** [world_busy] once the worker has taken C out of its queue and run it:
    one step of the clock for the [try_pop] that got C, ten for the round
    that found every queue of the workers empty. *)
Definition world_busy_after_run : world :=
  {| sys := {| queues_ := [set_done S2_queue_B;
                           set_tasks (set_done S2_queue_C) []];
               threads_ := [1]; nthreads_ := 1; current_index_ := 1 |};
     store := <[3%nat := has_value 8]> S2_C.1.1; clock := 11;
     invoked := [S2_C.1.2] |}.

(** [world_busy] once [run_on_main] has taken B out of the main queue and
    run it. *)
Definition world_busy_after_run_on_main : world :=
  {| sys := {| queues_ := [set_tasks (set_done S2_queue_B) [];
                           set_done S2_queue_C];
               threads_ := [1]; nthreads_ := 1; current_index_ := 1 |};
     store := <[2%nat := has_value 7]> S2_C.1.1; clock := 1;
     invoked := [S2_B.1.2] |}.

(** One worker, after [done ()]. *)
Definition world_done_1 : world :=
  {| sys := done (awaitable_task_system_new 1);
     store := ∅; clock := 0; invoked := [] |}.

(** No worker; the main queue holds B, respectively A, of scenario S2. *)
Definition world_main (q : task_queue) : world :=
  {| sys := {| queues_ := [q]; threads_ := [];
               nthreads_ := 0; current_index_ := 1 |};
     store := S2_store; clock := 0; invoked := [] |}.

(** A store in which the future 0 holds 1, and a callable that adds its
    two arguments. *)
Definition sum_store : fstore := {[ 0%nat := has_value 1 ]}.

Definition sum_callable (xs : list value) : call_result :=
  match xs with
  | [x; y] => returns (x + y)
  | _ => raises (user_exception 0)
  end.

(** * Properties of the task object *)

Lemma failure_of_bind {A B} (r : result A) (f : A -> result B) :
  failure_of (r ≫= f)
  = match r with Ok a => failure_of (f a) | _ => failure_of r end.
Proof. by destruct r. Qed.

Lemma failure_of_throw {A} (r : result A) e :
  r = Throw e ↔ failure_of r = Some (throws e).
Proof. destruct r; cbn; split; congruence. Qed.

Lemma failure_of_undefined {A} (r : result A) u :
  r = Undefined u ↔ failure_of r = Some (undefined u).
Proof. destruct r; cbn; split; congruence. Qed.

Lemma failure_of_noexcept {A} (r : result A) e :
  failure_of (noexcept r) ≠ Some (throws e).
Proof. by destruct r. Qed.

Lemma noexcept_ok {A} (r : result A) a : noexcept r = Ok a ↔ r = Ok a.
Proof. destruct r; cbn; split; congruence. Qed.

Lemma call_get_all_not_throw σ args e :
  failure_of (call_get_all σ args) ≠ Some (throws e).
Proof.
  induction args as [|a rest IH]; [done|]. cbn [call_get_all].
  rewrite failure_of_bind.
  destruct (call_get σ a) as [[v a']| | | | |] eqn:Ea; cbn; try done.
  - rewrite failure_of_bind.
    destruct (call_get_all σ rest) as [[vs rest']| | | | |]; cbn in *; done.
  - intros [= ->]. destruct a as [v|t]; [done|].
    eapply failure_of_noexcept. unfold call_get in Ea. by rewrite Ea.
Qed.

Lemma packaged_task_call_not_logic_error σ f vs what :
  failure_of (packaged_task_call σ f vs) ≠ Some (throws (logic_error what)).
Proof.
  unfold packaged_task_call. destruct (promise f) as [s|]; [|done].
  destruct (σ !! s) as [[| |]|]; try done.
  by destruct (callable f vs).
Qed.

Lemma invoke__not_logic_error σ m what :
  failure_of (invoke_ σ m) ≠ Some (throws (logic_error what)).
Proof.
  destruct m as [f args|f args]; cbn [invoke_]; rewrite failure_of_bind.
  - unfold apply.
    pose proof (packaged_task_call_not_logic_error σ f args what) as Hc.
    by destruct (packaged_task_call σ f args).
  - unfold do_invoke_. rewrite failure_of_bind.
    pose proof (call_get_all_not_throw σ args (logic_error what)) as Hg.
    destruct (call_get_all σ args) as [[vs args']| | | | |]; cbn; try done.
    rewrite failure_of_bind.
    pose proof (packaged_task_call_not_logic_error σ f vs what) as Hc.
    by destruct (packaged_task_call σ f vs).
Qed.

Lemma ready__not_throw σ m e : failure_of (ready_ σ m) ≠ Some (throws e).
Proof. destruct m; apply failure_of_noexcept. Qed.

Lemma call_ready_all_true σ args :
  call_ready_all σ args = Ok (replicate (length args) true).
Proof.
  induction args as [|a rest IH]; [done|]. cbn [call_ready_all].
  destruct a; cbn; by rewrite IH.
Qed.

Lemma check_all_true_replicate n : check_all_true (replicate n true) = true.
Proof. induction n as [|n IH]; [done|]. exact IH. Qed.

(** [ready] answers [true] on every task that holds a model, and throws on
    the empty task. *)
Lemma ready_cases σ t :
  ready σ t
  = match _t t with
    | Some _ => Ok true
    | None => Throw BadTaskAccess
    end.
Proof.
  destruct t as [[[f args|f args]|]]; cbn; [done| |done].
  unfold do_ready_. rewrite call_ready_all_true. cbn.
  by rewrite check_all_true_replicate.
Qed.

(** C4. A of scenario S2 is awaitable on a future that is pending:
    [wait_for (0s)] on that future answers [timeout], and the overload of
    [call_ready] for futures answers [false] on it; yet [ready] answers
    [true] on A, as it does on the ready task B. *)
Theorem ready_true_with_pending_future :
  S2_store !! 0%nat = Some pending
  ∧ wait_for_0 S2_store (fut 0) = Ok future_timeout
  ∧ call_ready_future S2_store (fut 0) = Ok false
  ∧ _t S2_A.1.2
    = Some (awaitable_task_model
              {| callable := identity_callable; promise := Some 1%nat |}
              [awaited (fut 0)])
  ∧ ready S2_store S2_A.1.2 = Ok true
  ∧ ready S2_store S2_B.1.2 = Ok true.
Proof. vm_compute. done. Qed.

(** C8. [operator()] and [ready] on the empty task throw the logic error
    "bad task access"; on a task that holds a model neither does. *)
Theorem bad_task_access_iff_empty σ :
  invoke σ empty_task = Throw BadTaskAccess
  ∧ ready σ empty_task = Throw BadTaskAccess
  ∧ (∀ m, invoke σ {| _t := Some m |} ≠ Throw BadTaskAccess)
  ∧ (∀ m, ready σ {| _t := Some m |} ≠ Throw BadTaskAccess).
Proof.
  repeat split; try reflexivity.
  - intros m. rewrite failure_of_throw. unfold invoke; cbn [_t].
    rewrite failure_of_bind.
    pose proof (invoke__not_logic_error σ m "bad task access") as H.
    by destruct (invoke_ σ m) as [[σ' m']| | | | |].
  - intros m. rewrite failure_of_throw. apply ready__not_throw.
Qed.

Lemma call_get_all_failed σ args :
  Forall (resolved σ) args → Exists (failed σ) args →
  call_get_all σ args = Terminate.
Proof.
  intros Hres Hex. induction Hres as [|a rest Ha Hrest IH].
  - inversion Hex.
  - cbn. destruct a as [v|t]; cbn.
    + inversion Hex as [? ? Hf|? ? Hf]; subst; [done|].
      by rewrite (IH Hf).
    + destruct Ha as (s & st & -> & Hs & Hst). cbn. rewrite Hs.
      destruct st as [|v|e]; cbn; try done.
      inversion Hex as [? ? Hf|? ? Hf]; subst.
      * destruct Hf as (s' & e & [= <-] & Hs'). congruence.
      * by rewrite (IH Hf).
Qed.

(** An awaitable task one of whose futures holds an exception, none being
    pending: [get] rethrows inside the [noexcept] [call_get], before the
    packaged task is entered. *)
Lemma invoke_failed_dependency σ f args :
  Forall (resolved σ) args → Exists (failed σ) args →
  invoke σ {| _t := Some (awaitable_task_model f args) |} = Terminate.
Proof.
  intros Hres Hex. unfold invoke; cbn. unfold do_invoke_.
  by rewrite (call_get_all_failed σ args Hres Hex).
Qed.

(** C2. The task [make_awaitable (λ x. x, f)] where the future [f] holds the
    exception 7: invoking it calls [std::terminate], and nothing is stored
    in the shared state of its promise, which stays pending. *)
Theorem invoke_failed_future_terminates :
  invoke S3_task.1.1 S3_task.1.2 = Terminate
  ∧ wait_for_0 S3_task.1.1 S3_task.2 = Ok future_timeout.
Proof. vm_compute. done. Qed.

(** The sibling path: what the callable of a ready task returns or throws
    is what [get] on the output future answers or rethrows, and the
    invocation itself returns. *)
Lemma invoke_ready_publishes σ f args :
  ∃ σ' t', invoke (make_ready_task σ f args).1.1
             (make_ready_task σ f args).1.2 = Ok (σ', t')
           ∧ get σ' (make_ready_task σ f args).2
             = match f args with
               | returns v => Ok v
               | raises e => Throw e
               end.
Proof.
  cbn. unfold apply, packaged_task_call. cbn. rewrite lookup_insert_eq.
  destruct (f args) as [v|e]; cbn; eexists _, _; (split; [done|]);
    cbn; by rewrite lookup_insert_eq.
Qed.

(** Scenario S1: [f1 = make_ready (λ (). 1)], then
    [f2 = make_awaitable (λ x. x + 1, f1.future)]; once both have run,
    [f2.future.get ()] is 2; [ready] answers [true] on the second task
    before the first has run as well as after. *)
Example ready_chain :
  let '(σ1, t1, f1) := make_ready_task ∅ (λ _, returns 1) [] in
  let '(σ2, t2, f2) :=
    make_awaitable_task σ1
      (λ xs, match xs with x :: _ => returns (x + 1) | [] => returns 0 end)
      [awaited f1] in
  ('(σ3, _) ← invoke σ2 t1; '(σ4, _) ← invoke σ3 t2; get σ4 f2) = Ok 2
  ∧ ready σ2 t2 = Ok true
  ∧ ('(σ3, _) ← invoke σ2 t1; ready σ3 t2) = Ok true.
Proof. vm_compute. done. Qed.

(** * Properties of the forward list and of the task queue *)

Lemma split_at_app_last n u (l : forward_list) :
  n ∉ l.*1 → split_at n (l ++ [(n, u)]) = Some (l, u, []).
Proof.
  induction l as [|[m t] l IH]; intros Hn; cbn.
  - by rewrite decide_True.
  - rewrite fmap_cons, not_elem_of_cons in Hn. destruct Hn as [Hm Hl].
    rewrite decide_False by done. by rewrite (IH Hl).
Qed.

Lemma new_node_fresh (l : forward_list) : new_node l ∉ l.*1.
Proof.
  unfold new_node. intros Hin.
  assert (Forall (λ k, (k <= list_max l.*1)%nat) l.*1) as Hall
    by by apply list_max_le.
  rewrite Forall_forall in Hall. specialize (Hall _ Hin). lia.
Qed.

(** A queue in order, seen from its tail. *)
Lemma queue_ok_inv q :
  queue_ok q →
  tasks_ q = []
  ∨ ∃ l n u, tasks_ q = l ++ [(n, u)] ∧ (n ∉ l.*1) ∧ NoDup l.*1
             ∧ last_ q = at_node n.
Proof.
  intros [Hnd Hlast]. destruct (last (tasks_ q)) as [[n u]|] eqn:E.
  - right. apply last_Some in E as [l El]. exists l, n, u.
    rewrite El in Hnd. rewrite fmap_app in Hnd. cbn in Hnd.
    apply NoDup_app in Hnd as (Hl & Hdisj & _).
    repeat split; try done.
    intros Hin. apply (Hdisj _ Hin). by left.
  - left. by apply last_None.
Qed.

Lemma queue_ok_snoc (l : forward_list) n u d :
  NoDup l.*1 → n ∉ l.*1 →
  queue_ok {| tasks_ := l ++ [(n, u)]; last_ := at_node n; done_ := d |}.
Proof.
  intros Hnd Hn. split; cbn.
  - rewrite fmap_app. apply NoDup_app. repeat split; [done| |].
    + intros x Hx Hx'. apply list_elem_of_singleton in Hx'. by subst.
    + apply NoDup_singleton.
  - by rewrite last_snoc.
Qed.

(** [push] and a [try_push] that gets the mutex put the task behind the
    last element and move the tail cursor onto it. *)
Lemma append_ok q t :
  queue_ok q →
  ∃ q', append q t = Ok q'
        ∧ tasks_ q' = tasks_ q ++ [(new_node (tasks_ q), t)]
        ∧ last_ q' = at_node (new_node (tasks_ q))
        ∧ done_ q' = done_ q
        ∧ queue_ok q'.
Proof.
  intros Hok. pose proof (new_node_fresh (tasks_ q)) as Hfresh.
  destruct (queue_ok_inv q Hok) as [E|(l & n & u & E & Hn & Hnd & Hlast)].
  - unfold append. rewrite E in *. cbn. eexists. repeat split.
    all: try done. all: try apply NoDup_singleton.
  - unfold append. destruct Hok as [Hnd' _].
    rewrite E in *. replace (empty (l ++ [(n, u)])) with false
      by by destruct l. rewrite Hlast. cbn.
    rewrite split_at_app_last by done. cbn. eexists. split; [done|].
    cbn. set (m := new_node (l ++ [(n, u)])) in *.
    replace (l ++ [(n, u); (m, t)]) with ((l ++ [(n, u)]) ++ [(m, t)])
      by by rewrite <- app_assoc.
    repeat split; try done.
    + cbn. rewrite fmap_app. apply NoDup_app. repeat split; [done| |].
      * intros x Hx Hx'. apply list_elem_of_singleton in Hx'. by subst.
      * apply NoDup_singleton.
    + cbn. by rewrite last_snoc.
Qed.

Lemma queue_ok_tail q x rest :
  queue_ok q → tasks_ q = x :: rest → queue_ok (set_tasks q rest).
Proof.
  intros [Hnd Hlast] E. rewrite E in *. split; cbn.
  - rewrite fmap_cons in Hnd. by apply NoDup_cons in Hnd as [_ ?].
  - destruct rest as [|y rest]; [done|]. exact Hlast.
Qed.

(** With more than one element in order, the tail cursor is not on the
    head. *)
Lemma queue_ok_last_not_head q n h x rest :
  queue_ok q → tasks_ q = (n, h) :: x :: rest → last_ q ≠ at_node n.
Proof.
  intros Hok E. destruct (queue_ok_inv q Hok)
    as [E'|(l & m & u & E' & Hm & Hnd & Hlast)]; [congruence|].
  rewrite Hlast. intros [= ->]. rewrite E in E'.
  destruct l as [|[k v] l]; [by destruct rest|].
  cbn in E'. injection E' as -> -> _. apply Hm. by left.
Qed.

(** [rotate_with_] answers only when it has nothing to do. *)
Lemma rotate_with__trivial q side_buf :
  empty (tasks_ q) || bool_decide (last_ q = begin (tasks_ q)) = true →
  rotate_with_ q side_buf = Ok (q, side_buf).
Proof. intros H. unfold rotate_with_. by rewrite H. Qed.

(** On a list with a head to rotate, [rotate_with_] asks the empty list
    [tasks_] (everything was spliced into the side buffer) for [begin ()]
    and splices after it; with the side buffer of [pop], which is empty,
    it already does so one statement earlier. *)
Lemma rotate_with__undefined q side_buf :
  empty (tasks_ q) || bool_decide (last_ q = begin (tasks_ q)) = false →
  rotate_with_ q side_buf = Undefined ub_iterator.
Proof.
  intros H. unfold rotate_with_. rewrite H.
  destruct side_buf as [|[n t] rest]; [done|].
  cbn. by rewrite decide_True.
Qed.

Lemma rotate_with__inv q side_buf q' side_buf' :
  rotate_with_ q side_buf = Ok (q', side_buf') → q' = q ∧ side_buf' = side_buf.
Proof.
  destruct (empty (tasks_ q) || bool_decide (last_ q = begin (tasks_ q)))
    eqn:E.
  - rewrite rotate_with__trivial by done. by intros [= -> ->].
  - by rewrite rotate_with__undefined.
Qed.

(** [pop] on a head that is ready. *)
Lemma pop_head_ready σ later fuel q n h rest :
  tasks_ q = (n, h) :: rest → ready σ h = Ok true →
  pop σ later fuel q = Ok (set_tasks q rest, (true, h)).
Proof.
  intros E Hr. unfold pop. rewrite E. cbn.
  rewrite decide_True by done. cbn. by rewrite Hr.
Qed.

(** [pop] on a queue with a head: the head check settles it, since
    [ready] answers [true] or throws. *)
Lemma pop_head σ later fuel q n h rest :
  tasks_ q = (n, h) :: rest →
  pop σ later fuel q
  = match _t h with
    | Some _ => Ok (set_tasks q rest, (true, h))
    | None => Throw BadTaskAccess
    end.
Proof.
  intros E. pose proof (ready_cases σ h) as Hr.
  destruct (_t h) as [m|].
  - by apply (pop_head_ready σ later fuel q n h rest E).
  - unfold pop. rewrite E. cbn. rewrite decide_True by done. cbn.
    by rewrite Hr.
Qed.

(** The scan leaves the [done] flag alone. *)
Lemma scan_done fuel σ q side_buf old_last iter s :
  scan fuel σ q side_buf old_last iter = Ok s →
  match s with
  | found q' _ | not_found q' _ => done_ q' = done_ q
  end.
Proof.
  revert q side_buf iter.
  induction fuel as [|fuel IH]; intros q side_buf iter; [done|]. cbn [scan].
  destruct (next2 (tasks_ q) side_buf iter) as [iter'| | | | |]; cbn; try done.
  case_bool_decide; [by intros [= <-]|].
  destruct (deref2 (tasks_ q) side_buf iter') as [t| | | | |]; cbn; try done.
  destruct (ready σ t) as [[|]| | | | |]; cbn; try done.
  - destruct (erase_after _ _) as [l| | | | |] eqn:El; cbn; try done.
    intros [= <-]. cbn. by case_bool_decide.
  - destruct (rotate_with_ q side_buf) as [[q2 sb2]| | | | |] eqn:Er;
      cbn; try done.
    apply rotate_with__inv in Er as [-> ->]. apply IH.
Qed.

Lemma pop_done σ later fuel q q' p :
  pop σ later fuel q = Ok (q', p) → done_ q' = done_ q.
Proof.
  unfold pop. destruct (empty (tasks_ q) && negb (done_ q)); [done|].
  destruct (empty (tasks_ q)); [by intros [= <- _]|].
  destruct (deref _ _) as [h| | | | |]; cbn; try done.
  destruct (ready σ h) as [[|]| | | | |]; cbn; try done.
  - destruct (pop_front _) as [l| | | | |]; cbn; try done. by intros [= <- _].
  - destruct (rotate_with_ q []) as [[q1 sb1]| | | | |] eqn:Er; cbn; try done.
    apply rotate_with__inv in Er as [-> ->].
    destruct (scan _ _ _ _ _ _) as [s| | | | |] eqn:Es; cbn; try done.
    apply scan_done in Es. destruct s as [q2 t|q2 sb2].
    + by intros [= <- _].
    + destruct (front _) as [t| | | | |]; cbn; try done.
      destruct (pop_front _) as [l| | | | |]; cbn; try done.
      destruct (spin_yield _ _ _ _) as [[]| | | | |]; cbn; try done.
      by intros [= <- _].
Qed.

Lemma append_done q t q' : append q t = Ok q' → done_ q' = done_ q.
Proof.
  unfold append. destruct (empty (tasks_ q)); cbn; [by intros [= <-]|].
  destruct (emplace_after _ _ _) as [[l it]| | | | |]; cbn; try done.
  by intros [= <-].
Qed.

Lemma try_pop_done lock q q' p :
  try_pop lock q = Ok (q', p) → done_ q' = done_ q.
Proof.
  unfold try_pop. destruct (negb lock || empty (tasks_ q));
    [by intros [= <- _]|].
  destruct (front _) as [t| | | | |]; cbn; try done.
  destruct (pop_front _) as [l| | | | |]; cbn; try done.
  by intros [= <- _].
Qed.

Lemma try_push_done lock q t q' b :
  try_push lock q t = Ok (q', b) → done_ q' = done_ q.
Proof.
  unfold try_push. destruct (negb lock); [by intros [= <- _]|].
  destruct (append q t) as [q1| | | | |] eqn:E; cbn; try done.
  intros [= <- _]. by apply append_done in E.
Qed.

(** C6. On a queue whose [done] flag is set: [pop] on the empty sequence
    answers [(false, empty)] and does not wait; no member of the queue
    clears the flag; [set_done] changes nothing. *)
Theorem done_is_final q :
  done_ q = true →
  (∀ σ later fuel,
     tasks_ q = [] → pop σ later fuel q = Ok (q, (false, empty_task)))
  ∧ set_done q = q
  ∧ (∀ q0, done_ (set_done q0) = true ∧ set_done (set_done q0) = set_done q0)
  ∧ (∀ lock q' p, try_pop lock q = Ok (q', p) → done_ q' = true)
  ∧ (∀ lock t q' b, try_push lock q t = Ok (q', b) → done_ q' = true)
  ∧ (∀ t q', push q t = Ok q' → done_ q' = true)
  ∧ (∀ σ later fuel q' p, pop σ later fuel q = Ok (q', p) → done_ q' = true)
  ∧ (∀ side_buf q' side_buf',
       rotate_with_ q side_buf = Ok (q', side_buf') → done_ q' = true).
Proof.
  intros Hd. repeat split.
  - intros σ later fuel E. unfold pop. by rewrite E, Hd.
  - destruct q. cbn in Hd. by subst.
  - intros lock q' p H. apply try_pop_done in H. congruence.
  - intros lock t q' b H. apply try_push_done in H. congruence.
  - intros t q' H. apply append_done in H. congruence.
  - intros σ later fuel q' p H. apply pop_done in H. congruence.
  - intros sb q' sb' H. apply rotate_with__inv in H as [-> _]. done.
Qed.

Lemma done_is_final_witness :
  done_ (set_done new_task_queue) = true
  ∧ pop ∅ (λ _, ∅) 1 (set_done new_task_queue)
    = Ok (set_done new_task_queue, (false, empty_task)).
Proof.
  split; [reflexivity|].
  exact (proj1 (done_is_final (set_done new_task_queue) eq_refl)
           ∅ (λ _, ∅) 1%nat eq_refl).
Defined.




(** The members of the queue other than the rotation keep the tail cursor
    in place. *)
Lemma try_pop_ok lock q q' p :
  queue_ok q → try_pop lock q = Ok (q', p) → queue_ok q'.
Proof.
  intros Hok. unfold try_pop.
  destruct (negb lock || empty (tasks_ q)); [by intros [= <- _]|].
  destruct (tasks_ q) as [|[n t] rest] eqn:E; cbn; [done|].
  intros [= <- _]. by eapply queue_ok_tail.
Qed.

Lemma pop_head_ready_ok σ later fuel q n h rest :
  queue_ok q → tasks_ q = (n, h) :: rest → ready σ h = Ok true →
  ∃ q', pop σ later fuel q = Ok (q', (true, h)) ∧ queue_ok q'.
Proof.
  intros Hok E Hr. eexists. split; [by eapply pop_head_ready|].
  by eapply queue_ok_tail.
Qed.

(** Whenever [pop] answers on a queue in order, it leaves the queue in
    order: it answers the head, or nothing. *)
Lemma pop_ok σ later fuel q q' p :
  queue_ok q → pop σ later fuel q = Ok (q', p) → queue_ok q'.
Proof.
  intros Hok. destruct (tasks_ q) as [|[n h] rest] eqn:E.
  - unfold pop. rewrite E. cbn. destruct (done_ q); cbn; [|done].
    by intros [= <- _].
  - rewrite (pop_head σ later fuel q n h rest E).
    destruct (_t h); [|done]. intros [= <- _]. by eapply queue_ok_tail.
Qed.



(** * Properties of the task system *)

Lemma set_queue_same w i q :
  queues_ (sys w) !! Z.to_nat i = Some q → set_queue w i q = w.
Proof.
  destruct w as [[qs th n c] σ clk inv]. cbn. intros H.
  unfold set_queue, set_sys. cbn. by rewrite list_insert_id.
Qed.

Lemma sys_iter_tick n w : sys (Nat.iter n tick w) = sys w.
Proof. induction n as [|n IH]; [done|]. cbn. exact IH. Qed.

Lemma store_iter_tick n w : store (Nat.iter n tick w) = store w.
Proof. induction n as [|n IH]; [done|]. cbn. exact IH. Qed.

Lemma invoked_iter_tick n w : invoked (Nat.iter n tick w) = invoked w.
Proof. induction n as [|n IH]; [done|]. cbn. exact IH. Qed.

Lemma iter_tick_succ n w : Nat.iter n tick (tick w) = Nat.iter (S n) tick w.
Proof. symmetry. apply Nat.iter_succ_r. Qed.

Lemma first_success_range try n c c' :
  first_success try n c = Some c' → (c <= c' < c + n)%nat.
Proof.
  revert c. induction n as [|n IH]; intros c; cbn; [done|].
  destruct (try c); [intros [= <-]; lia|].
  intros H. apply IH in H. lia.
Qed.

(** A [try_push] that does not get the mutex changes nothing. *)
Lemma queue_try_push_contended env w i t q :
  queues_ (sys w) !! Z.to_nat i = Some q →
  try_to_lock env (clock w) = false →
  queue_try_push env w i t = Ok (tick w, false).
Proof.
  intros Hq Hl. unfold queue_try_push, at_queue. cbn. rewrite Hq, Hl. cbn.
  by rewrite (set_queue_same (tick w) i q).
Qed.

(** A [try_push] that gets the mutex enqueues. *)
Lemma queue_try_push_acquired env w i t q :
  queues_ (sys w) !! Z.to_nat i = Some q → queue_ok q →
  try_to_lock env (clock w) = true →
  ∃ w', queue_try_push env w i t = Ok (w', true)
        ∧ enqueued_at i t (sys w) (sys w')
        ∧ current_index_ (sys w') = current_index_ (sys w)
        ∧ store w' = store w ∧ invoked w' = invoked w
        ∧ clock w' = S (clock w).
Proof.
  intros Hq Hok Hl. unfold queue_try_push, at_queue. cbn. rewrite Hq, Hl.
  destruct (append_ok q t Hok) as (q' & Ha & Ht & _ & Hd & Hok').
  unfold try_push. cbn. rewrite Ha. cbn. eexists. split; [done|].
  cbn. repeat split. exists q, q'.
  split; [done|]. split; [done|]. split; [|done].
  rewrite Ht, fmap_app. done.
Qed.

Lemma queue_push_enqueues w i t q :
  queues_ (sys w) !! Z.to_nat i = Some q → queue_ok q →
  ∃ w', queue_push w i t = Ok w'
        ∧ enqueued_at i t (sys w) (sys w')
        ∧ current_index_ (sys w') = current_index_ (sys w)
        ∧ store w' = store w ∧ invoked w' = invoked w
        ∧ clock w' = clock w.
Proof.
  intros Hq Hok. unfold queue_push, at_queue, push. rewrite Hq.
  destruct (append_ok q t Hok) as (q' & Ha & Ht & _ & Hd & Hok').
  rewrite Ha. cbn. eexists. split; [done|].
  cbn. repeat split. exists q, q'.
  split; [done|]. split; [done|]. split; [|done].
  rewrite Ht, fmap_app. done.
Qed.

Lemma wrap_small z : 0 ≤ z < 2 ^ 64 → wrap z = z.
Proof. intros H. unfold wrap. by apply Z.mod_small. Qed.

Lemma wrap_range z : 0 ≤ wrap z < 2 ^ 64.
Proof. unfold wrap. apply Z.mod_pos_bound. lia. Qed.

(** Without wrap-around in [idx + k], the queue of attempt [k] is the plain
    [((idx + k) mod N) + 1]. *)
Lemma ring_queue_no_wrap N idx k :
  0 ≤ idx + k < 2 ^ 64 → ring_queue N idx k = (idx + k) mod N + 1.
Proof. intros H. unfold ring_queue. by rewrite wrap_small. Qed.

Lemma ring_queue_range N idx k : 1 ≤ N → 1 ≤ ring_queue N idx k ≤ N.
Proof.
  intros HN. unfold ring_queue.
  pose proof (Z.mod_pos_bound (wrap (idx + k)) N). lia.
Qed.

Lemma get_thread_queue_idx_ring s idx seed :
  1 ≤ nthreads_ s → 10 * nthreads_ s < 2 ^ 64 →
  get_thread_queue_idx s idx seed = Ok (ring_queue (nthreads_ s) idx seed).
Proof.
  intros HN Hsmall. unfold get_thread_queue_idx.
  rewrite decide_False by lia. f_equal. fold (ring_queue (nthreads_ s) idx seed).
  apply wrap_small. pose proof (ring_queue_range (nthreads_ s) idx seed HN). lia.
Qed.

(** The queues of the ring are queues of the system, and in order. *)
Lemma system_ok_queue s i :
  system_ok s → 0 ≤ i ≤ nthreads_ s →
  ∃ q, queues_ s !! Z.to_nat i = Some q ∧ queue_ok q.
Proof.
  intros (HN & _ & Hlen & Hall & _) Hi.
  destruct (queues_ s !! Z.to_nat i) as [q|] eqn:E.
  - exists q. split; [done|]. rewrite Forall_lookup in Hall. by eapply Hall.
  - apply lookup_ge_None in E. lia.
Qed.

Lemma queue_ok_new : queue_ok new_task_queue.
Proof. split; [apply NoDup_nil_2|done]. Qed.

(** The constructor leaves the system in order. *)
Lemma system_ok_new N :
  0 ≤ N → 10 * N < 2 ^ 64 → system_ok (awaitable_task_system_new N).
Proof.
  intros HN Hsmall. unfold awaitable_task_system_new.
  rewrite wrap_small by lia. repeat split; cbn; try lia.
  - rewrite length_replicate. lia.
  - constructor; [apply queue_ok_new|].
    apply Forall_replicate, queue_ok_new.
Qed.

(** An enqueued task leaves the system in order. *)
Lemma enqueued_at_system_ok i t s s' :
  system_ok s → enqueued_at i t s s' →
  0 ≤ current_index_ s' < 2 ^ 64 → system_ok s'.
Proof.
  intros (H1 & H2 & H3 & H4 & H5)
    (q & q' & Hq & Hqs & _ & _ & Hok' & _ & HN) Hci.
  unfold system_ok. rewrite HN, Hqs. repeat split; try done; try lia.
  - by rewrite length_insert.
  - apply Forall_insert; done.
Qed.

(** The loop of the worker-targeted submissions: it enqueues at the first
    attempt that gets its mutex, on the queue of that attempt, and
    otherwise changes nothing. *)
Lemma try_push_ring_spec env t idx n :
  ∀ k w,
    system_ok (sys w) → 1 ≤ nthreads_ (sys w) →
    0 ≤ k → k + Z.of_nat n ≤ 10 * nthreads_ (sys w) →
    match first_success (try_to_lock env) n (clock w) with
    | Some c =>
        ∃ w', try_push_ring env n k idx t w = Ok (w', true)
              ∧ enqueued_at
                  (ring_queue (nthreads_ (sys w)) idx
                     (k + Z.of_nat (c - clock w))) t (sys w) (sys w')
              ∧ current_index_ (sys w') = current_index_ (sys w)
              ∧ store w' = store w ∧ invoked w' = invoked w
              ∧ clock w' = S c
    | None => try_push_ring env n k idx t w = Ok (Nat.iter n tick w, false)
    end.
Proof.
  induction n as [|n IH]; intros k w Hok HN Hk Hkn; [done|].
  cbn [first_success try_push_ring].
  pose proof Hok as (_ & Hsmall & _).
  rewrite get_thread_queue_idx_ring by done. cbn [mbind result_mbind result_bind].
  pose proof (ring_queue_range (nthreads_ (sys w)) idx k HN) as Hr.
  destruct (system_ok_queue (sys w) (ring_queue (nthreads_ (sys w)) idx k) Hok)
    as (q & Hq & Hqok); [lia|].
  destruct (try_to_lock env (clock w)) eqn:Hl.
  - destruct (queue_try_push_acquired env w _ t q Hq Hqok Hl)
      as (w' & -> & Henq & Hrest).
    exists w'. split; [done|]. rewrite Nat.sub_diag, Z.add_0_r. by split.
  - rewrite (queue_try_push_contended env w _ t q Hq Hl).
    cbn [mbind result_mbind result_bind].
    rewrite wrap_small by lia.
    specialize (IH (k + 1) (tick w) Hok HN ltac:(lia) ltac:(cbn; lia)).
    cbn [clock tick] in IH.
    destruct (first_success (try_to_lock env) n (S (clock w))) as [c|] eqn:Hc.
    + destruct IH as (w' & -> & Henq & Hrest). exists w'. split; [done|].
      apply first_success_range in Hc.
      replace (k + Z.of_nat (c - clock w)) with (k + 1 + Z.of_nat (c - S (clock w)))
        by lia. by split.
    + rewrite IH. by rewrite iter_tick_succ.
Qed.

(** The part the three worker-targeted submissions share: the task ends in
    the queue the specification names, and the dispatch counter moves on
    by one. *)
Lemma dispatch_spec env t w :
  system_ok (sys w) → 1 ≤ nthreads_ (sys w) →
  ∃ w', dispatch env t w = Ok w'
        ∧ enqueued_at (dispatch_queue env w) t (sys w) (sys w')
        ∧ current_index_ (sys w') = wrap (current_index_ (sys w) + 1)
        ∧ store w' = store w ∧ invoked w' = invoked w.
Proof.
  intros Hok HN. unfold dispatch, next_index.
  set (idx := current_index_ (sys w)).
  set (w1 := set_sys w _).
  assert (system_ok (sys w1)) as Hok1.
  { destruct Hok as (H1 & H2 & H3 & H4 & H5). repeat split; try done.
    all: cbn; apply wrap_range. }
  pose proof Hok as (_ & Hsmall & _ & _ & Hidx).
  pose proof (try_push_ring_spec env t idx
                (Z.to_nat (wrap (10 * nthreads_ (sys w1)))) 0 w1 Hok1 HN
                ltac:(lia)) as Hring.
  cbn [sys w1 set_sys nthreads_] in Hring.
  rewrite (wrap_small (10 * nthreads_ (sys w))) in Hring by lia.
  specialize (Hring ltac:(lia)).
  cbn [sys w1 set_sys nthreads_].
  rewrite (wrap_small (10 * nthreads_ (sys w))) by lia.
  unfold dispatch_queue. fold idx. cbn [clock w1 set_sys] in Hring.
  destruct (first_success _ _ _) as [c|].
  - destruct Hring as (w' & -> & Henq & Hci & Hst & Hinv & _).
    exists w'. split; [done|]. rewrite Z.add_0_l in Henq. by repeat split.
  - rewrite Hring. cbn [mbind result_mbind result_bind].
    rewrite sys_iter_tick.
    rewrite get_thread_queue_idx_ring by done.
    cbn [mbind result_mbind result_bind].
    pose proof (ring_queue_range (nthreads_ (sys w)) idx 0 HN) as Hr.
    cbn [sys w1 set_sys nthreads_].
    destruct (system_ok_queue (sys w1) (ring_queue (nthreads_ (sys w)) idx 0) Hok1)
      as (q & Hq & Hqok); [cbn; lia|].
    destruct (queue_push_enqueues
                (Nat.iter (Z.to_nat (10 * nthreads_ (sys w))) tick w1)
                (ring_queue (nthreads_ (sys w)) idx 0) t q) as
      (w' & -> & Henq & Hci & Hst & Hinv & _);
      [by rewrite sys_iter_tick|done|].
    exists w'. split; [done|].
    rewrite sys_iter_tick in Henq, Hci.
    rewrite store_iter_tick in Hst. rewrite invoked_iter_tick in Hinv.
    rewrite ring_queue_no_wrap in Henq by lia. rewrite Z.add_0_r in Henq.
    by repeat split.
Qed.

(** C5. With N >= 1 workers, [push_ready] and the two [push_awaitable]
    take [idx] from the dispatch counter, which moves on by one, and leave
    the task at the end of the queue of the first attempt [k] below 10 N
    whose [try_push] gets its mutex, queue [((idx + k) mod N) + 1], or of
    queue [(idx mod N) + 1] when every attempt fails; they answer the
    future of the task. *)
Theorem worker_submission_dispatch env w :
  system_ok (sys w) → 1 ≤ nthreads_ (sys w) →
  (∀ f args,
     ∃ w', push_ready env w f args
           = Ok (w', (make_ready_task (store w) f args).2)
           ∧ enqueued_at (dispatch_queue env w)
               (make_ready_task (store w) f args).1.2 (sys w) (sys w')
           ∧ current_index_ (sys w') = wrap (current_index_ (sys w) + 1)
           ∧ system_ok (sys w'))
  ∧ (∀ f args,
       ∃ w', push_awaitable env w f args
             = Ok (w', (make_awaitable_task (store w) f args).2)
             ∧ enqueued_at (dispatch_queue env w)
                 (make_awaitable_task (store w) f args).1.2 (sys w) (sys w')
             ∧ current_index_ (sys w') = wrap (current_index_ (sys w) + 1)
             ∧ system_ok (sys w'))
  ∧ (∀ t,
       ∃ w', push_awaitable_task env w t = Ok w'
             ∧ enqueued_at (dispatch_queue env w) t (sys w) (sys w')
             ∧ current_index_ (sys w') = wrap (current_index_ (sys w) + 1)
             ∧ system_ok (sys w')).
Proof.
  intros Hok HN.
  assert (∀ t w0,
            sys w0 = sys w → clock w0 = clock w →
            ∃ w', dispatch env t w0 = Ok w'
                  ∧ enqueued_at (dispatch_queue env w) t (sys w) (sys w')
                  ∧ current_index_ (sys w') = wrap (current_index_ (sys w) + 1)
                  ∧ system_ok (sys w')) as Hdispatch.
  { intros t w0 Hs Hc.
    destruct (dispatch_spec env t w0) as (w' & Hrun & Henq & Hci & _);
      [by rewrite Hs|by rewrite Hs|].
    unfold dispatch_queue in Henq. rewrite Hs, Hc in Henq. rewrite Hs in Hci.
    exists w'. split; [done|]. split; [done|]. split; [done|].
    eapply enqueued_at_system_ok; [exact Hok|exact Henq|].
    rewrite Hci. apply wrap_range. }
  split; [|split].
  - intros f args. unfold push_ready. rewrite decide_False by lia.
    cbn [make_ready_task package].
    edestruct Hdispatch as (w' & -> & Hrest); [| |by exists w']; done.
  - intros f args. unfold push_awaitable. rewrite decide_False by lia.
    cbn [make_awaitable_task package].
    edestruct Hdispatch as (w' & -> & Hrest); [| |by exists w']; done.
  - intros t. unfold push_awaitable_task. rewrite decide_False by lia.
    edestruct Hdispatch as (w' & -> & Hrest); [| |by exists w']; done.
Qed.

(** The loop of the submissions to the main queue. *)
Lemma try_push_main_spec env t n :
  ∀ w q,
    queues_ (sys w) !! 0%nat = Some q → queue_ok q →
    match first_success (try_to_lock env) n (clock w) with
    | Some c =>
        ∃ w', try_push_main env n t w = Ok (w', true)
              ∧ enqueued_at 0 t (sys w) (sys w')
              ∧ current_index_ (sys w') = current_index_ (sys w)
              ∧ store w' = store w ∧ invoked w' = invoked w
              ∧ clock w' = S c
    | None => try_push_main env n t w = Ok (Nat.iter n tick w, false)
    end.
Proof.
  induction n as [|n IH]; intros w q Hq Hok; [done|].
  cbn [first_success try_push_main].
  destruct (try_to_lock env (clock w)) eqn:Hl.
  - unfold get_main_thread_queue_idx.
    destruct (queue_try_push_acquired env w 0 t q Hq Hok Hl)
      as (w' & -> & Henq & Hrest).
    exists w'. by split.
  - unfold get_main_thread_queue_idx.
    rewrite (queue_try_push_contended env w 0 t q Hq Hl).
    cbn [mbind result_mbind result_bind].
    specialize (IH (tick w) q Hq Hok). cbn [clock tick] in IH.
    destruct (first_success (try_to_lock env) n (S (clock w))) as [c|].
    + destruct IH as (w' & -> & Henq & Hrest). exists w'. by split.
    + rewrite IH. by rewrite iter_tick_succ.
Qed.

(** [n] attempts on the main queue followed, when they all fail, by a
    blocking [push]: the task is in the main queue either way. *)
Lemma main_submission env t n w :
  system_ok (sys w) →
  ∃ w', ('(w1, pushed) ← try_push_main env n t w;
         if pushed : bool then Ok w1
         else queue_push w1 get_main_thread_queue_idx t) = Ok w'
        ∧ enqueued_at 0 t (sys w) (sys w')
        ∧ current_index_ (sys w') = current_index_ (sys w)
        ∧ store w' = store w ∧ invoked w' = invoked w.
Proof.
  intros Hok. pose proof Hok as (HN & _). unfold get_main_thread_queue_idx.
  destruct (system_ok_queue (sys w) 0 Hok) as (q & Hq & Hqok); [lia|].
  pose proof (try_push_main_spec env t n w q Hq Hqok) as Hmain.
  destruct (first_success _ _ _) as [c|].
  - destruct Hmain as (w' & -> & Henq & Hci & Hst & Hinv & _).
    exists w'. by repeat split.
  - rewrite Hmain. cbn [mbind result_mbind result_bind].
    destruct (queue_push_enqueues (Nat.iter n tick w) 0 t q)
      as (w' & -> & Henq & Hci & Hst & Hinv & _);
      [by rewrite sys_iter_tick|done|].
    exists w'. split; [done|].
    rewrite sys_iter_tick in Henq, Hci.
    rewrite store_iter_tick in Hst. rewrite invoked_iter_tick in Hinv.
    by repeat split.
Qed.

Lemma push_awaitable_on_main_task_spec env w t :
  system_ok (sys w) →
  ∃ w', push_awaitable_on_main_task env w t = Ok w'
        ∧ enqueued_at 0 t (sys w) (sys w')
        ∧ current_index_ (sys w') = current_index_ (sys w)
        ∧ store w' = store w ∧ invoked w' = invoked w.
Proof. intros Hok. exact (main_submission env t 10 w Hok). Qed.

Lemma push_ready_on_main_spec env w f args :
  system_ok (sys w) →
  ∃ w', push_ready_on_main env w f args
        = Ok (w', (make_ready_task (store w) f args).2)
        ∧ enqueued_at 0 (make_ready_task (store w) f args).1.2 (sys w) (sys w')
        ∧ current_index_ (sys w') = current_index_ (sys w)
        ∧ invoked w' = invoked w.
Proof.
  intros Hok. unfold push_ready_on_main. cbn [make_ready_task package].
  set (t := {| _t := _ |}). set (w0 := set_store w _).
  destruct (main_submission env t
              (Z.to_nat (wrap (10 * nthreads_ (sys w0)))) w0 Hok)
    as (w' & Hrun & Henq & Hci & _ & Hinv).
  exists w'. split; [|by repeat split].
  destruct (try_push_main _ _ _ _) as [[w1 [|]]| | | | |];
    cbn in Hrun |- *; try done; [congruence|].
  by rewrite Hrun.
Qed.

Lemma push_awaitable_on_main_spec env w f args :
  system_ok (sys w) →
  ∃ w', push_awaitable_on_main env w f args
        = Ok (w', (make_awaitable_task (store w) f args).2)
        ∧ enqueued_at 0 (make_awaitable_task (store w) f args).1.2
            (sys w) (sys w')
        ∧ current_index_ (sys w') = current_index_ (sys w)
        ∧ invoked w' = invoked w.
Proof.
  intros Hok. unfold push_awaitable_on_main. cbn [make_awaitable_task package].
  set (t := {| _t := _ |}). set (w0 := set_store w _).
  destruct (main_submission env t 10 w0 Hok)
    as (w' & Hrun & Henq & Hci & _ & Hinv).
  exists w'. split; [|by repeat split].
  destruct (try_push_main _ _ _ _) as [[w1 [|]]| | | | |];
    cbn in Hrun |- *; try done; [congruence|].
  by rewrite Hrun.
Qed.

(** C7. A task system constructed with N = 0 has one queue and no worker
    thread, and in such a system [push_ready] and the two [push_awaitable]
    leave the task at the end of queue 0; the system stays as it was
    otherwise. *)
Theorem no_workers_submissions_on_main env w :
  system_ok (sys w) → nthreads_ (sys w) = 0 →
  (threads_ (awaitable_task_system_new 0) = []
   ∧ queues_ (awaitable_task_system_new 0) = [new_task_queue]
   ∧ nthreads_ (awaitable_task_system_new 0) = 0
   ∧ system_ok (awaitable_task_system_new 0))
  ∧ (∀ f args,
       ∃ w', push_ready env w f args
             = Ok (w', (make_ready_task (store w) f args).2)
             ∧ enqueued_at 0 (make_ready_task (store w) f args).1.2
                 (sys w) (sys w')
             ∧ system_ok (sys w') ∧ nthreads_ (sys w') = 0)
  ∧ (∀ f args,
       ∃ w', push_awaitable env w f args
             = Ok (w', (make_awaitable_task (store w) f args).2)
             ∧ enqueued_at 0 (make_awaitable_task (store w) f args).1.2
                 (sys w) (sys w')
             ∧ system_ok (sys w') ∧ nthreads_ (sys w') = 0)
  ∧ (∀ t,
       ∃ w', push_awaitable_task env w t = Ok w'
             ∧ enqueued_at 0 t (sys w) (sys w')
             ∧ system_ok (sys w') ∧ nthreads_ (sys w') = 0).
Proof.
  intros Hok HN. pose proof Hok as (_ & _ & _ & _ & Hidx).
  split; [|split; [|split]].
  - repeat split; try done. apply system_ok_new; lia.
  - intros f args. unfold push_ready. rewrite decide_True by done.
    destruct (push_ready_on_main_spec env w f args Hok)
      as (w' & -> & Henq & Hci & _).
    exists w'. split; [done|]. split; [done|]. split.
    + eapply enqueued_at_system_ok; [exact Hok|exact Henq|by rewrite Hci].
    + destruct Henq as (? & ? & _ & _ & _ & _ & _ & _ & ->). done.
  - intros f args. unfold push_awaitable. rewrite decide_True by done.
    destruct (push_awaitable_on_main_spec env w f args Hok)
      as (w' & -> & Henq & Hci & _).
    exists w'. split; [done|]. split; [done|]. split.
    + eapply enqueued_at_system_ok; [exact Hok|exact Henq|by rewrite Hci].
    + destruct Henq as (? & ? & _ & _ & _ & _ & _ & _ & ->). done.
  - intros t. unfold push_awaitable_task. rewrite decide_True by done.
    destruct (push_awaitable_on_main_task_spec env w t Hok)
      as (w' & -> & Henq & Hci & _).
    exists w'. split; [done|]. split; [done|]. split.
    + eapply enqueued_at_system_ok; [exact Hok|exact Henq|by rewrite Hci].
    + destruct Henq as (? & ? & _ & _ & _ & _ & _ & _ & ->). done.
Qed.

(** A [try_pop] on an empty queue changes nothing, with or without the
    mutex. *)
Lemma queue_try_pop_empty env w i q :
  queues_ (sys w) !! Z.to_nat i = Some q → tasks_ q = [] →
  queue_try_pop env w i = Ok (tick w, (false, empty_task)).
Proof.
  intros Hq E. unfold queue_try_pop, at_queue, try_pop. cbn.
  rewrite Hq, E. cbn. rewrite orb_true_r. cbn.
  by rewrite (set_queue_same (tick w) i q).
Qed.

Lemma try_pop_main_empty env n :
  ∀ w q,
    queues_ (sys w) !! 0%nat = Some q → tasks_ q = [] →
    try_pop_main env n w = Ok (Nat.iter n tick w, (false, empty_task)).
Proof.
  induction n as [|n IH]; intros w q Hq E; [done|].
  cbn [try_pop_main]. unfold get_main_thread_queue_idx.
  rewrite (queue_try_pop_empty env w 0 q Hq E).
  cbn [mbind result_mbind result_bind fst].
  rewrite (IH (tick w) q Hq E). by rewrite iter_tick_succ.
Qed.

(** C9. [run_on_main] on a main queue that is done and empty: the ten
    [try_pop] and the [pop] answer [(false, empty)], and [run_on_main]
    returns with no task invoked (invoking the empty task would throw). *)
Theorem run_on_main_done_empty env fuel w q :
  queues_ (sys w) !! 0%nat = Some q → done_ q = true → tasks_ q = [] →
  run_on_main env fuel w = Ok (Nat.iter 10 tick w)
  ∧ invoked (Nat.iter 10 tick w) = invoked w
  ∧ store (Nat.iter 10 tick w) = store w
  ∧ sys (Nat.iter 10 tick w) = sys w
  ∧ call_task w empty_task = Throw BadTaskAccess.
Proof.
  intros Hq Hd E. split; [|by repeat split].
  unfold run_on_main. rewrite (try_pop_main_empty env 10 w q Hq E).
  cbn [mbind result_mbind result_bind fst].
  unfold queue_pop, at_queue, get_main_thread_queue_idx.
  change (Z.to_nat 0) with 0%nat. rewrite sys_iter_tick, Hq.
  unfold pop. rewrite E, Hd. cbn [empty andb negb mbind result_mbind result_bind].
  cbn [fst]. f_equal. apply set_queue_same. by rewrite sys_iter_tick.
Qed.

(** ** The system stays in order *)

Section in_order.
Context (env : environment).

Lemma at_queue_system_ok {A} w i
  (op : task_queue -> result (task_queue * A)) w' a :
  system_ok (sys w) →
  (∀ q q' b, queue_ok q → op q = Ok (q', b) → queue_ok q') →
  at_queue w i op = Ok (w', a) → system_ok (sys w').
Proof.
  intros (H1 & H2 & H3 & H4 & H5) Hop. unfold at_queue.
  destruct (queues_ (sys w) !! Z.to_nat i) as [q|] eqn:Hq; [|done].
  destruct (op q) as [[q' b]| | | | |] eqn:E; cbn; try done.
  intros [= <- _]. repeat split; cbn; try done; try lia.
  - by rewrite length_insert.
  - apply Forall_insert; [done|]. eapply Hop; [|exact E].
    rewrite Forall_lookup in H4. by eapply H4.
Qed.

Lemma queue_try_pop_system_ok w i w' p :
  system_ok (sys w) → queue_try_pop env w i = Ok (w', p) →
  system_ok (sys w').
Proof.
  intros Hok. apply at_queue_system_ok; [done|].
  intros q q' b Hq. by apply try_pop_ok.
Qed.

Lemma queue_pop_system_ok fuel w i w' p :
  system_ok (sys w) → queue_pop env fuel w i = Ok (w', p) →
  system_ok (sys w').
Proof.
  intros Hok. apply at_queue_system_ok; [done|].
  intros q q' b Hq. by apply pop_ok.
Qed.

Lemma call_task_sys w t w' : call_task w t = Ok w' → sys w' = sys w.
Proof.
  unfold call_task. destruct (invoke (store w) t) as [[σ' t']| | | | |];
    cbn; try done. by intros [= <-].
Qed.

Lemma try_pop_main_system_ok n :
  ∀ w w' p,
    system_ok (sys w) → try_pop_main env n w = Ok (w', p) →
    system_ok (sys w').
Proof.
  induction n as [|n IH]; intros w w' p Hok; cbn [try_pop_main].
  - by intros [= <- _].
  - destruct (queue_try_pop env w get_main_thread_queue_idx)
      as [[w1 [b t]]| | | | |] eqn:E; cbn; try done.
    apply queue_try_pop_system_ok in E; [|done].
    destruct b; [by intros [= <- _]|]. by apply IH.
Qed.

Lemma try_pop_ring_system_ok n :
  ∀ k idx w w' p,
    system_ok (sys w) → try_pop_ring env n k idx w = Ok (w', p) →
    system_ok (sys w').
Proof.
  induction n as [|n IH]; intros k idx w w' p Hok; cbn [try_pop_ring].
  - by intros [= <- _].
  - destruct (get_thread_queue_idx _ _ _) as [qi| | | | |]; cbn; try done.
    destruct (queue_try_pop env w qi) as [[w1 [b t]]| | | | |] eqn:E;
      cbn; try done.
    apply queue_try_pop_system_ok in E; [|done].
    destruct b; [by intros [= <- _]|]. by apply IH.
Qed.

(** [run_on_main], when it returns, leaves the system in order. *)
Lemma run_on_main_system_ok fuel w w' :
  system_ok (sys w) → run_on_main env fuel w = Ok w' → system_ok (sys w').
Proof.
  intros Hok. unfold run_on_main.
  destruct (try_pop_main env 10 w) as [[w1 [b t]]| | | | |] eqn:E1;
    cbn; try done.
  apply try_pop_main_system_ok in E1; [|done].
  destruct b; cbn.
  - intros H. apply call_task_sys in H. by rewrite H.
  - destruct (queue_pop env fuel w1 get_main_thread_queue_idx)
      as [[w2 [b2 t2]]| | | | |] eqn:E2; cbn; try done.
    apply queue_pop_system_ok in E2; [|done].
    destruct b2; cbn; [|by intros [= <-]].
    intros H. apply call_task_sys in H. by rewrite H.
Qed.

(** So does the worker loop. *)
Lemma run_system_ok fuel :
  ∀ idx w w',
    system_ok (sys w) → run env fuel idx w = Ok w' → system_ok (sys w').
Proof.
  induction fuel as [|fuel IH]; intros idx w w' Hok; cbn [run]; [done|].
  destruct (try_pop_ring env _ 0 idx w) as [[w1 [b t]]| | | | |] eqn:E1;
    cbn; try done.
  apply try_pop_ring_system_ok in E1; [|done].
  destruct b; cbn.
  - destruct (call_task w1 t) as [w3| | | | |] eqn:E3; cbn; try done.
    apply call_task_sys in E3. apply IH. by rewrite E3.
  - destruct (queue_pop env fuel w1 idx)
      as [[w2 [b2 t2]]| | | | |] eqn:E2; cbn; try done.
    apply queue_pop_system_ok in E2; [|done].
    destruct b2; cbn; [|by intros [= <-]].
    destruct (call_task w2 t2) as [w3| | | | |] eqn:E3; cbn; try done.
    apply call_task_sys in E3. apply IH. by rewrite E3.
Qed.

End in_order.

(** [done ()] sets every flag and keeps the system in order. *)
Lemma done_system_ok s :
  system_ok s → system_ok (done s) ∧ Forall (λ q, done_ q = true) (queues_ (done s)).
Proof.
  intros (H1 & H2 & H3 & H4 & H5). split.
  - repeat split; cbn; try done; try lia.
    + by rewrite length_fmap.
    + apply Forall_fmap. eapply Forall_impl; [exact H4|].
      intros q Hq. exact Hq.
  - cbn. apply Forall_fmap. by apply Forall_true.
Qed.

(** ** No remainder by zero *)

Lemma modulus_nonzero_bind {A B} (r : result A) (f : A -> result B) :
  modulus_nonzero r → (∀ a, r = Ok a → modulus_nonzero (f a)) →
  modulus_nonzero (r ≫= f).
Proof.
  unfold modulus_nonzero. rewrite failure_of_bind. destruct r; eauto.
Qed.

Lemma modulus_nonzero_noexcept {A} (r : result A) :
  modulus_nonzero r → modulus_nonzero (noexcept r).
Proof. by destruct r. Qed.

(** Splits a call along its binds and its case distinctions. *)
Ltac step_modulus :=
  repeat first
    [ solve [unfold modulus_nonzero; cbn; done]
    | solve [eauto]
    | apply modulus_nonzero_noexcept
    | apply modulus_nonzero_bind; [|intros ? ?]
    | match goal with
      | |- modulus_nonzero (if ?c then _ else _) => destruct c
      | |- modulus_nonzero (match ?x with _ => _ end) => destruct x
      end ].

Lemma wait_for_0_modulus σ t : modulus_nonzero (wait_for_0 σ t).
Proof. unfold wait_for_0. step_modulus. Qed.

Lemma get_modulus σ t : modulus_nonzero (get σ t).
Proof. unfold get. step_modulus. Qed.

Lemma call_ready_all_modulus σ args : modulus_nonzero (call_ready_all σ args).
Proof.
  induction args as [|a rest IH]; cbn [call_ready_all]; [done|].
  unfold call_ready. pose proof (wait_for_0_modulus σ). step_modulus.
Qed.

Lemma call_get_all_modulus σ args : modulus_nonzero (call_get_all σ args).
Proof.
  induction args as [|a rest IH]; cbn [call_get_all]; [done|].
  unfold call_get. pose proof (get_modulus σ). step_modulus.
Qed.

Lemma packaged_task_call_modulus σ f vs :
  modulus_nonzero (packaged_task_call σ f vs).
Proof. unfold packaged_task_call. step_modulus. Qed.

Lemma ready_modulus σ t : modulus_nonzero (ready σ t).
Proof.
  unfold ready, ready_, do_ready_.
  pose proof (call_ready_all_modulus σ). step_modulus.
Qed.

Lemma invoke_modulus σ t : modulus_nonzero (invoke σ t).
Proof.
  unfold invoke, invoke_, do_invoke_, apply.
  pose proof (call_get_all_modulus σ).
  pose proof (packaged_task_call_modulus σ). step_modulus.
Qed.

Lemma rotate_with__modulus q side_buf :
  modulus_nonzero (rotate_with_ q side_buf).
Proof.
  destruct (empty (tasks_ q) || bool_decide (last_ q = begin (tasks_ q)))
    eqn:E.
  - by rewrite rotate_with__trivial.
  - by rewrite rotate_with__undefined.
Qed.

Lemma spin_yield_modulus later i fuel t :
  modulus_nonzero (spin_yield later i fuel t).
Proof.
  revert i. induction fuel as [|fuel IH]; intros i; cbn [spin_yield]; [done|].
  pose proof (ready_modulus (later i) t). pose proof (IH (S i)).
  step_modulus.
Qed.

Lemma scan_modulus fuel σ q side_buf old_last iter :
  modulus_nonzero (scan fuel σ q side_buf old_last iter).
Proof.
  revert q side_buf iter.
  induction fuel as [|fuel IH]; intros q side_buf iter; cbn [scan]; [done|].
  apply modulus_nonzero_bind;
    [unfold next2, next; step_modulus|intros iter' _].
  case_bool_decide; [done|].
  apply modulus_nonzero_bind;
    [unfold deref2, deref; step_modulus|intros t _].
  apply modulus_nonzero_bind; [apply ready_modulus|intros [|] _].
  - apply modulus_nonzero_bind; [|done].
    unfold erase_after. step_modulus.
  - apply modulus_nonzero_bind; [apply rotate_with__modulus|].
    intros [q2 sb2] _. apply IH.
Qed.

Lemma pop_modulus σ later fuel q : modulus_nonzero (pop σ later fuel q).
Proof.
  unfold pop.
  destruct (empty (tasks_ q) && negb (done_ q)); [done|].
  destruct (empty (tasks_ q)); [done|].
  apply modulus_nonzero_bind; [unfold deref; step_modulus|intros h _].
  apply modulus_nonzero_bind; [apply ready_modulus|intros [|] _].
  - unfold pop_front. step_modulus.
  - apply modulus_nonzero_bind; [apply rotate_with__modulus|].
    intros [q1 sb1] _.
    apply modulus_nonzero_bind; [apply scan_modulus|intros [q2 t|q2 sb2] _].
    + done.
    + pose proof (spin_yield_modulus later 0 fuel).
      unfold front, pop_front. step_modulus.
Qed.

Lemma try_pop_modulus lock q : modulus_nonzero (try_pop lock q).
Proof. unfold try_pop, front, pop_front. step_modulus. Qed.

Lemma append_modulus q t : modulus_nonzero (append q t).
Proof. unfold append, emplace_after. cbn. step_modulus. Qed.

Lemma try_push_modulus lock q t : modulus_nonzero (try_push lock q t).
Proof. unfold try_push. pose proof (append_modulus q t). step_modulus. Qed.

Lemma at_queue_modulus {A} w i (op : task_queue -> result (task_queue * A)) :
  (∀ q, modulus_nonzero (op q)) → modulus_nonzero (at_queue w i op).
Proof. intros Hop. unfold at_queue. step_modulus. Qed.

Lemma at_queue_nthreads {A} w i (op : task_queue -> result (task_queue * A))
  w' a :
  at_queue w i op = Ok (w', a) → nthreads_ (sys w') = nthreads_ (sys w).
Proof.
  unfold at_queue. destruct (queues_ (sys w) !! Z.to_nat i) as [q|]; [|done].
  destruct (op q) as [[q' a']| | | | |]; cbn; try done. by intros [= <- _].
Qed.

Lemma queue_push_modulus w i t : modulus_nonzero (queue_push w i t).
Proof.
  unfold queue_push. apply modulus_nonzero_bind; [|by intros [? ?] _].
  apply at_queue_modulus. intros q. unfold push.
  pose proof (append_modulus q t). step_modulus.
Qed.

Lemma call_task_modulus w t : modulus_nonzero (call_task w t).
Proof. unfold call_task. pose proof (invoke_modulus (store w) t). step_modulus. Qed.

Lemma call_task_nthreads w t w' :
  call_task w t = Ok w' → nthreads_ (sys w') = nthreads_ (sys w).
Proof.
  unfold call_task. destruct (invoke (store w) t) as [[σ' t']| | | | |];
    cbn; try done. by intros [= <-].
Qed.

(** [get_thread_queue_idx] is defined exactly when the modulus is not 0. *)
Lemma get_thread_queue_idx_modulus s idx seed :
  modulus_nonzero (get_thread_queue_idx s idx seed) ↔ nthreads_ s ≠ 0.
Proof.
  unfold get_thread_queue_idx, modulus_nonzero. case_decide; cbn; split; done.
Qed.

(** The two ring loops run only with a modulus that is not 0: either no
    iteration is left or [nthreads_] is not 0. *)
Lemma try_push_ring_modulus env n :
  ∀ k idx t w,
    (n = 0%nat ∨ nthreads_ (sys w) ≠ 0) →
    modulus_nonzero (try_push_ring env n k idx t w).
Proof.
  induction n as [|n IH]; intros k idx t w Hn; cbn [try_push_ring]; [done|].
  destruct Hn as [|HN]; [done|].
  apply modulus_nonzero_bind;
    [by apply get_thread_queue_idx_modulus|intros qi _].
  apply modulus_nonzero_bind.
  - apply at_queue_modulus. intros q. apply try_push_modulus.
  - intros [w' [|]] Hw'; [done|]. apply IH. right.
    apply at_queue_nthreads in Hw'. by rewrite Hw'.
Qed.

Lemma try_pop_ring_modulus env n :
  ∀ k idx w,
    (n = 0%nat ∨ nthreads_ (sys w) ≠ 0) →
    modulus_nonzero (try_pop_ring env n k idx w).
Proof.
  induction n as [|n IH]; intros k idx w Hn; cbn [try_pop_ring]; [done|].
  destruct Hn as [|HN]; [done|].
  apply modulus_nonzero_bind;
    [by apply get_thread_queue_idx_modulus|intros qi _].
  apply modulus_nonzero_bind.
  - apply at_queue_modulus. intros q. apply try_pop_modulus.
  - intros [w' [[|] t]] Hw'; cbn [fst]; [done|]. apply IH. right.
    apply at_queue_nthreads in Hw'. by rewrite Hw'.
Qed.

Lemma try_pop_ring_nthreads env n :
  ∀ k idx w w' p,
    try_pop_ring env n k idx w = Ok (w', p) →
    nthreads_ (sys w') = nthreads_ (sys w).
Proof.
  induction n as [|n IH]; intros k idx w w' p; cbn [try_pop_ring].
  - by intros [= <- _].
  - destruct (get_thread_queue_idx _ _ _) as [qi| | | | |]; cbn; try done.
    destruct (queue_try_pop env w qi) as [[w1 [b t]]| | | | |] eqn:E;
      cbn; try done.
    apply at_queue_nthreads in E. cbn in E.
    destruct b; [by intros [= <- _]|].
    intros H. apply IH in H. congruence.
Qed.

Lemma try_push_main_modulus env n :
  ∀ t w, modulus_nonzero (try_push_main env n t w).
Proof.
  induction n as [|n IH]; intros t w; cbn [try_push_main]; [done|].
  apply modulus_nonzero_bind.
  - apply at_queue_modulus. intros q. apply try_push_modulus.
  - intros [w' [|]] _; [done|]. apply IH.
Qed.

Lemma try_pop_main_modulus env n :
  ∀ w, modulus_nonzero (try_pop_main env n w).
Proof.
  induction n as [|n IH]; intros w; cbn [try_pop_main]; [done|].
  apply modulus_nonzero_bind.
  - apply at_queue_modulus. intros q. apply try_pop_modulus.
  - intros [w' [[|] t]] _; cbn [fst]; [done|]. apply IH.
Qed.

Lemma try_push_ring_nthreads env n :
  ∀ k idx t w w' b,
    try_push_ring env n k idx t w = Ok (w', b) →
    nthreads_ (sys w') = nthreads_ (sys w).
Proof.
  induction n as [|n IH]; intros k idx t w w' b; cbn [try_push_ring].
  - by intros [= <- _].
  - destruct (get_thread_queue_idx _ _ _) as [qi| | | | |]; cbn; try done.
    destruct (queue_try_push env w qi t) as [[w1 [|]]| | | | |] eqn:E;
      cbn; try done; apply at_queue_nthreads in E; cbn in E.
    + by intros [= <- _].
    + intros H. apply IH in H. congruence.
Qed.

(** After [10 * nthreads_] iterations that ran, [nthreads_] is not 0. *)
Lemma ring_bound_modulus N :
  Z.to_nat (wrap (10 * N)) = 0%nat ∨ N ≠ 0.
Proof.
  destruct (decide (N = 0)) as [->|]; [by left|by right].
Qed.

Lemma dispatch_modulus env t w :
  nthreads_ (sys w) ≠ 0 → modulus_nonzero (dispatch env t w).
Proof.
  intros HN. unfold dispatch, next_index.
  apply modulus_nonzero_bind.
  - apply try_push_ring_modulus. by right.
  - intros [w2 [|]] Hw2; [done|].
    apply try_push_ring_nthreads in Hw2. cbn in Hw2.
    apply modulus_nonzero_bind; [|intros; apply queue_push_modulus].
    apply get_thread_queue_idx_modulus. by rewrite Hw2.
Qed.

Lemma queue_pop_modulus env fuel w i : modulus_nonzero (queue_pop env fuel w i).
Proof. apply at_queue_modulus. intros q. apply pop_modulus. Qed.

Lemma run_on_main_modulus env fuel w : modulus_nonzero (run_on_main env fuel w).
Proof.
  unfold run_on_main.
  apply modulus_nonzero_bind; [apply try_pop_main_modulus|].
  intros [w1 [[|] t]] _; cbn [fst].
  - cbn. apply call_task_modulus.
  - apply modulus_nonzero_bind; [apply queue_pop_modulus|].
    intros [w2 [[|] t2]] _; cbn [fst snd]; [apply call_task_modulus|done].
Qed.

Lemma run_modulus env fuel : ∀ idx w, modulus_nonzero (run env fuel idx w).
Proof.
  induction fuel as [|fuel IH]; intros idx w; cbn [run]; [done|].
  apply modulus_nonzero_bind;
    [apply try_pop_ring_modulus, ring_bound_modulus|].
  intros [w1 [[|] t]] _; cbn [fst].
  - cbn. apply modulus_nonzero_bind; [apply call_task_modulus|].
    intros w3 _. apply IH.
  - apply modulus_nonzero_bind; [apply queue_pop_modulus|].
    intros [w2 [[|] t2]] _; cbn [fst snd]; [|done].
    apply modulus_nonzero_bind; [apply call_task_modulus|].
    intros w3 _. apply IH.
Qed.

Lemma main_tail_modulus {A} env n t w (out : A) :
  modulus_nonzero
    ('(w1, pushed) ← try_push_main env n t w;
     if pushed : bool then Ok (w1, out)
     else w2 ← queue_push w1 get_main_thread_queue_idx t; Ok (w2, out)).
Proof.
  apply modulus_nonzero_bind; [apply try_push_main_modulus|].
  intros [w1 [|]] _; [done|].
  apply modulus_nonzero_bind; [apply queue_push_modulus|done].
Qed.

(** C10. No call of [get_thread_queue_idx] has the modulus 0: a call with
    [nthreads_ = 0] would end in a remainder by zero, and neither the
    submissions, nor [run_on_main], nor the worker loop end so, whatever
    the world they start in. *)
Theorem get_thread_queue_idx_modulus_nonzero env fuel w :
  (∀ s idx seed,
     modulus_nonzero (get_thread_queue_idx s idx seed) ↔ nthreads_ s ≠ 0)
  ∧ (∀ f args, modulus_nonzero (push_ready env w f args))
  ∧ (∀ f args, modulus_nonzero (push_awaitable env w f args))
  ∧ (∀ t, modulus_nonzero (push_awaitable_task env w t))
  ∧ (∀ f args, modulus_nonzero (push_ready_on_main env w f args))
  ∧ (∀ f args, modulus_nonzero (push_awaitable_on_main env w f args))
  ∧ (∀ t, modulus_nonzero (push_awaitable_on_main_task env w t))
  ∧ modulus_nonzero (run_on_main env fuel w)
  ∧ (∀ idx, modulus_nonzero (run env fuel idx w)).
Proof.
  assert (∀ f args, modulus_nonzero (push_ready_on_main env w f args)) as Hrm.
  { intros f args. unfold push_ready_on_main. cbn [make_ready_task package].
    apply main_tail_modulus. }
  assert (∀ f args, modulus_nonzero (push_awaitable_on_main env w f args))
    as Ham.
  { intros f args. unfold push_awaitable_on_main.
    cbn [make_awaitable_task package]. apply main_tail_modulus. }
  assert (∀ t, modulus_nonzero (push_awaitable_on_main_task env w t)) as Htm.
  { intros t. unfold push_awaitable_on_main_task.
    apply modulus_nonzero_bind; [apply try_push_main_modulus|].
    intros [w1 [|]] _; [done|]. apply queue_push_modulus. }
  split; [apply get_thread_queue_idx_modulus|].
  split; [|split; [|split; [|split; [|split; [|split; [|split]]]]]];
    try done.
  - intros f args. unfold push_ready. case_decide as HN; [apply Hrm|].
    cbn [make_ready_task package].
    apply modulus_nonzero_bind; [by apply dispatch_modulus|done].
  - intros f args. unfold push_awaitable. case_decide as HN; [apply Ham|].
    cbn [make_awaitable_task package].
    apply modulus_nonzero_bind; [by apply dispatch_modulus|done].
  - intros t. unfold push_awaitable_task. case_decide as HN; [apply Htm|].
    by apply dispatch_modulus.
  - apply run_on_main_modulus.
  - intros idx. apply run_modulus.
Qed.

(** ** The statements at concrete worlds *)

(** Two workers, [idx = 1]: the fifth attempt is the first to get its
    mutex, on queue ((1 + 4) mod 2) + 1 = 2; when every attempt fails the
    blocking [push] is on queue (1 mod 2) + 1 = 2. With three workers and
    the second attempt, the queue is ((1 + 1) mod 3) + 1 = 3. *)
Example dispatch_queue_fifth_attempt :
  dispatch_queue (busy_env 4) (world_new 2) = 2.
Proof. reflexivity. Qed.

Example dispatch_queue_every_attempt_fails :
  dispatch_queue (busy_env 100) (world_new 2) = 2.
Proof. reflexivity. Qed.

Example dispatch_queue_second_attempt :
  dispatch_queue (busy_env 1) (world_new 3) = 3.
Proof. reflexivity. Qed.

Example push_awaitable_task_fifth_attempt :
  (w ← push_awaitable_task (busy_env 4) (world_new 2) S2_B.1.2;
   Ok ((λ q, (tasks_ q).*2) <$> queues_ (sys w),
       current_index_ (sys w), clock w))
  = Ok ([[]; []; [S2_B.1.2]], 2, 5%nat).
Proof. vm_compute. reflexivity. Qed.

Lemma worker_submission_dispatch_witness :
  system_ok (sys (world_new 2))
  ∧ 1 ≤ nthreads_ (sys (world_new 2))
  ∧ ∃ w', push_awaitable_task (busy_env 4) (world_new 2) S2_B.1.2 = Ok w'
          ∧ enqueued_at (dispatch_queue (busy_env 4) (world_new 2))
              S2_B.1.2 (sys (world_new 2)) (sys w')
          ∧ current_index_ (sys w')
            = wrap (current_index_ (sys (world_new 2)) + 1)
          ∧ system_ok (sys w').
Proof.
  assert (system_ok (sys (world_new 2))) as Hok.
  { split; [vm_compute; congruence|]. split; [reflexivity|].
    split; [reflexivity|]. split; [|split; vm_compute; congruence].
    repeat constructor. }
  assert (1 ≤ nthreads_ (sys (world_new 2))) as HN by (vm_compute; congruence).
  split; [exact Hok|]. split; [exact HN|].
  exact (proj2 (proj2 (worker_submission_dispatch (busy_env 4) (world_new 2)
                         Hok HN)) S2_B.1.2).
Defined.

Lemma no_workers_submissions_on_main_witness :
  system_ok (sys (world_new 0))
  ∧ nthreads_ (sys (world_new 0)) = 0
  ∧ ∃ w', push_awaitable_task (busy_env 4) (world_new 0) S2_B.1.2 = Ok w'
          ∧ enqueued_at 0 S2_B.1.2 (sys (world_new 0)) (sys w')
          ∧ system_ok (sys w') ∧ nthreads_ (sys w') = 0.
Proof.
  assert (system_ok (sys (world_new 0))) as Hok.
  { split; [vm_compute; congruence|]. split; [reflexivity|].
    split; [reflexivity|]. split; [|split; vm_compute; congruence].
    repeat constructor. }
  split; [exact Hok|]. split; [reflexivity|].
  exact (proj2 (proj2 (proj2 (no_workers_submissions_on_main (busy_env 4)
                                (world_new 0) Hok eq_refl))) S2_B.1.2).
Defined.

Lemma run_on_main_done_empty_witness :
  queues_ (sys world_done) !! 0%nat = Some (set_done new_task_queue)
  ∧ run_on_main (busy_env 4) 1 world_done = Ok (Nat.iter 10 tick world_done)
  ∧ invoked (Nat.iter 10 tick world_done) = invoked world_done.
Proof.
  pose proof (run_on_main_done_empty (busy_env 4) 1 world_done
                (set_done new_task_queue) eq_refl eq_refl eq_refl) as H.
  exact (conj eq_refl (conj (proj1 H) (proj1 (proj2 H)))).
Defined.

(** * Further properties of the task queue *)

Lemma set_tasks_same q : set_tasks q (tasks_ q) = q.
Proof. by destruct q. Qed.

Lemma push_all_spec ts :
  ∀ q, queue_ok q →
       ∃ q', push_all q ts = Ok q'
             ∧ (tasks_ q').*2 = (tasks_ q).*2 ++ ts
             ∧ done_ q' = done_ q
             ∧ queue_ok q'.
Proof.
  induction ts as [|t ts IH]; intros q Hok; cbn [push_all].
  - exists q. by rewrite app_nil_r.
  - unfold push.
    destruct (append_ok q t Hok) as (q1 & -> & Ht & _ & Hd & Hok1).
    cbn [mbind result_mbind result_bind].
    destruct (IH q1 Hok1) as (q' & -> & Hts & Hd' & Hok').
    exists q'. split; [done|]. split; [|split; [congruence|done]].
    rewrite Hts, Ht, fmap_app. cbn. by rewrite <- app_assoc.
Qed.

Lemma try_pop_all_spec (l : forward_list) :
  ∀ q, tasks_ q = l →
       try_pop_all (length l) q = Ok (set_tasks q [], l.*2).
Proof.
  induction l as [|[n t] rest IH]; intros q E; cbn [length try_pop_all].
  - assert (set_tasks q [] = q) as -> by (destruct q; cbn in *; by subst).
    done.
  - unfold try_pop. rewrite E. cbn.
    rewrite (IH (set_tasks q rest) eq_refl). done.
Qed.

(** X1. First in, first out: the tasks pushed onto a queue in order come
    back from [try_pop], after the ones that were there, in the order of
    the pushes; the queue is then empty and the next [try_pop] answers
    [(false, empty)]. *)
Theorem push_then_try_pop_fifo q ts :
  queue_ok q →
  ∃ q', push_all q ts = Ok q'
        ∧ try_pop_all (length (tasks_ q) + length ts) q'
          = Ok (set_tasks q' [], (tasks_ q).*2 ++ ts)
        ∧ try_pop true (set_tasks q' []) = Ok (set_tasks q' [], (false, empty_task)).
Proof.
  intros Hok. destruct (push_all_spec ts q Hok) as (q' & Hpush & Hts & _ & _).
  exists q'. split; [done|]. split; [|done].
  assert (length (tasks_ q) + length ts = length (tasks_ q'))%nat as ->.
  { rewrite <- (length_fmap snd (tasks_ q')), Hts, length_app, length_fmap.
    done. }
  rewrite (try_pop_all_spec (tasks_ q') q' eq_refl). by rewrite Hts.
Qed.

Lemma push_then_try_pop_fifo_witness :
  queue_ok new_task_queue
  ∧ ∃ q', push_all new_task_queue [S2_A.1.2; S2_B.1.2] = Ok q'
          ∧ try_pop_all 2 q' = Ok (set_tasks q' [], [S2_A.1.2; S2_B.1.2]).
Proof.
  split; [exact queue_ok_new|].
  destruct (push_then_try_pop_fifo new_task_queue [S2_A.1.2; S2_B.1.2]
              queue_ok_new) as (q' & H1 & H2 & _).
  exists q'. exact (conj H1 H2).
Defined.

(** X2. On a queue in order the two non-blocking members always answer:
    [try_push] answers whether it got the mutex, and the task is then the
    new last one, nothing having moved otherwise; [try_pop] answers [true]
    exactly when it got the mutex and the queue is not empty, with the
    head, and otherwise [(false, empty)] on the untouched queue. Both leave
    the queue in order. *)
Theorem try_push_try_pop_outcome lock q t :
  queue_ok q →
  (∃ q', try_push lock q t = Ok (q', lock)
         ∧ (tasks_ q').*2 = (tasks_ q).*2 ++ (if lock then [t] else [])
         ∧ done_ q' = done_ q
         ∧ queue_ok q')
  ∧ (∃ q' p, try_pop lock q = Ok (q', p)
             ∧ fst p = lock && negb (empty (tasks_ q))
             ∧ (tasks_ q).*2 = (if fst p then [snd p] else []) ++ (tasks_ q').*2
             ∧ (fst p = false → snd p = empty_task ∧ q' = q)
             ∧ queue_ok q').
Proof.
  intros Hok. split.
  - unfold try_push. destruct lock; cbn.
    + destruct (append_ok q t Hok) as (q' & -> & Ht & _ & Hd & Hok').
      exists q'. cbn. split; [done|]. split; [|done].
      by rewrite Ht, fmap_app.
    + exists q. by rewrite app_nil_r.
  - unfold try_pop. destruct lock; cbn.
    + destruct (tasks_ q) as [|[n u] rest] eqn:E; cbn.
      * exists q, (false, empty_task). rewrite E.
        split; [done|]. split; [done|]. split; [done|]. by split.
      * exists (set_tasks q rest), (true, u). cbn.
        split; [done|]. split; [done|]. split; [done|]. split; [done|].
        by eapply queue_ok_tail.
    + exists q, (false, empty_task).
      split; [done|]. split; [done|]. split; [done|]. by split.
Qed.

Lemma try_push_try_pop_outcome_witness :
  queue_ok new_task_queue
  ∧ ∃ q', try_push true new_task_queue S2_B.1.2 = Ok (q', true)
          ∧ (tasks_ q').*2 = [S2_B.1.2].
Proof.
  split; [exact queue_ok_new|].
  destruct (proj1 (try_push_try_pop_outcome true new_task_queue S2_B.1.2
                     queue_ok_new)) as (q' & H1 & H2 & _).
  exists q'. exact (conj H1 H2).
Defined.

(** The two ways [pop] has to answer. *)
Lemma pop_cases σ later fuel q q' b t :
  pop σ later fuel q = Ok (q', (b, t)) →
  (tasks_ q = [] ∧ done_ q = true ∧ q' = q ∧ b = false ∧ t = empty_task)
  ∨ (∃ n rest, tasks_ q = (n, t) :: rest ∧ q' = set_tasks q rest ∧ b = true
               ∧ ready σ t = Ok true).
Proof.
  destruct (tasks_ q) as [|[n h] rest] eqn:E.
  - unfold pop. rewrite E. cbn. destruct (done_ q); cbn; [|done].
    intros [= <- <- <-]. by left.
  - rewrite (pop_head σ later fuel q n h rest E).
    destruct (_t h) as [m|] eqn:Hm; [|done].
    intros [= <- <- <-]. right. exists n, rest. repeat split.
    by rewrite ready_cases, Hm.
Qed.

(** X3. [pop] never takes a task from the middle of the queue: when it
    answers [(true, t)], [t] was the head and the queue is left with the
    tasks behind it, the tail cursor and the flag as they were; when it
    answers [(false, t)], the queue was empty and done, is unchanged, and
    [t] is the empty task. *)
Theorem pop_answers_the_head σ later fuel q q' b t :
  pop σ later fuel q = Ok (q', (b, t)) →
  if b then ∃ n rest, tasks_ q = (n, t) :: rest ∧ q' = set_tasks q rest
  else tasks_ q = [] ∧ done_ q = true ∧ q' = q ∧ t = empty_task.
Proof.
  intros H. apply pop_cases in H
    as [(E & Hd & -> & -> & ->)|(n & rest & E & -> & -> & _)].
  - done.
  - by exists n, rest.
Qed.

(** X4. [pop] answers no empty task: a task it answers holds a model, and
    [ready] answers [true] of it, in the store of the [pop] and in
    whatever store comes later. *)
Theorem pop_answers_a_task_with_model σ later fuel q q' t :
  pop σ later fuel q = Ok (q', (true, t)) →
  (∃ m, _t t = Some m) ∧ ∀ σ', ready σ' t = Ok true.
Proof.
  destruct (tasks_ q) as [|[n h] rest] eqn:E.
  - unfold pop. rewrite E. cbn. by destruct (done_ q).
  - rewrite (pop_head σ later fuel q n h rest E).
    destruct (_t h) as [m|] eqn:Hm; [|done].
    intros [= _ <-]. split; [by exists m|].
    intros σ'. by rewrite ready_cases, Hm.
Qed.

(** X6. A queue of tasks that are all ready is emptied by [pop] in the
    order of the queue. *)
Theorem pop_ready_fifo σ later fuel q :
  Forall (λ t, ready σ t = Ok true) (tasks_ q).*2 →
  pop_all σ later fuel (length (tasks_ q)) q
  = Ok (set_tasks q [], (tasks_ q).*2).
Proof.
  remember (tasks_ q) as l eqn:E. revert q E.
  induction l as [|[n t] rest IH]; intros q E Hall; cbn [length pop_all].
  - assert (set_tasks q [] = q) as -> by (destruct q; cbn in *; by subst).
    done.
  - rewrite fmap_cons in Hall. apply Forall_cons in Hall as [Ht Hrest].
    rewrite (pop_head_ready σ later fuel q n t rest (eq_sym E) Ht). cbn.
    rewrite (IH (set_tasks q rest) eq_refl Hrest). done.
Qed.

Lemma pop_answers_the_head_witness :
  pop S2_store (λ _, S2_store) 1 S2_queue_AB
  = Ok (set_tasks S2_queue_AB [(2%nat, S2_B.1.2)], (true, S2_A.1.2))
  ∧ ∃ n rest, tasks_ S2_queue_AB = (n, S2_A.1.2) :: rest
              ∧ set_tasks S2_queue_AB [(2%nat, S2_B.1.2)]
                = set_tasks S2_queue_AB rest.
Proof.
  assert (pop S2_store (λ _, S2_store) 1 S2_queue_AB
          = Ok (set_tasks S2_queue_AB [(2%nat, S2_B.1.2)], (true, S2_A.1.2)))
    as H by reflexivity.
  split; [exact H|].
  exact (pop_answers_the_head S2_store (λ _, S2_store) 1 S2_queue_AB
           (set_tasks S2_queue_AB [(2%nat, S2_B.1.2)]) true S2_A.1.2 H).
Defined.

Lemma pop_answers_a_task_with_model_witness :
  pop S2_store (λ _, S2_store) 1 S2_queue_AB
  = Ok (set_tasks S2_queue_AB [(2%nat, S2_B.1.2)], (true, S2_A.1.2))
  ∧ (∃ m, _t S2_A.1.2 = Some m)
  ∧ ∀ σ', ready σ' S2_A.1.2 = Ok true.
Proof.
  assert (pop S2_store (λ _, S2_store) 1 S2_queue_AB
          = Ok (set_tasks S2_queue_AB [(2%nat, S2_B.1.2)], (true, S2_A.1.2)))
    as H by reflexivity.
  split; [exact H|].
  exact (pop_answers_a_task_with_model S2_store (λ _, S2_store) 1 S2_queue_AB
           (set_tasks S2_queue_AB [(2%nat, S2_B.1.2)]) S2_A.1.2 H).
Defined.

Lemma pop_ready_fifo_witness :
  Forall (λ t, ready S2_store t = Ok true) (tasks_ S2_queue_BB).*2
  ∧ pop_all S2_store (λ _, S2_store) 1 2 S2_queue_BB
    = Ok (set_tasks S2_queue_BB [], [S2_B.1.2; S2_B.1.2]).
Proof.
  assert (Forall (λ t, ready S2_store t = Ok true) (tasks_ S2_queue_BB).*2)
    as H by (repeat constructor).
  split; [exact H|].
  exact (pop_ready_fifo S2_store (λ _, S2_store) 1 S2_queue_BB H).
Defined.

(** X5. [ready] answers [true] on every task that holds a model, whatever
    the store, so also while a future of the task is pending, holds an
    exception or has been consumed; on the empty task it throws "bad task
    access". It never waits. *)
Theorem ready_true_of_every_model σ t :
  ready σ t
  = match _t t with
    | Some _ => Ok true
    | None => Throw BadTaskAccess
    end
  ∧ ∀ σ', ready σ' t = ready σ t.
Proof.
  assert (∀ σ0, ready σ0 t
                = match _t t with
                  | Some _ => Ok true
                  | None => Throw BadTaskAccess
                  end) as H.
  { intros σ0. destruct t as [[[f args|f args]|]]; cbn; [done| |done].
    unfold do_ready_. rewrite call_ready_all_true. cbn.
    by rewrite check_all_true_replicate. }
  split; [apply H|]. intros σ'. by rewrite !H.
Qed.

(** X7. [pop] waits exactly on an empty queue whose [done] flag is not
    set, and then on the condition variable: with a task in the queue it
    answers, spins or fails, but does not wait. *)
Theorem pop_waits_iff_empty_not_done σ later fuel q w :
  pop σ later fuel q = Blocked w
  ↔ w = on_condition_variable ∧ tasks_ q = [] ∧ done_ q = false.
Proof.
  split.
  - destruct (tasks_ q) as [|[n h] rest] eqn:E.
    + unfold pop. rewrite E. cbn. destruct (done_ q); cbn; [done|].
      by intros [= <-].
    + rewrite (pop_head σ later fuel q n h rest E). by destruct (_t h).
  - intros (-> & E & Hd). unfold pop. by rewrite E, Hd.
Qed.

(** * Further properties of the task object *)

Lemma packaged_task_call_inv σ f vs σ' :
  packaged_task_call σ f vs = Ok σ' →
  ∃ s, promise f = Some s ∧ σ !! s = Some pending
       ∧ σ' = <[s := match callable f vs with
                      | returns v => has_value v
                      | raises e => has_exception e
                      end]> σ.
Proof.
  unfold packaged_task_call. destruct (promise f) as [s|]; [|done].
  destruct (σ !! s) as [[| |]|] eqn:E; try done.
  destruct (callable f vs); intros [= <-]; by exists s.
Qed.

Lemma call_get_all_consumes σ args vs args' :
  call_get_all σ args = Ok (vs, args') → args' = consumed <$> args.
Proof.
  revert vs args'. induction args as [|a rest IH]; intros vs args';
    cbn [call_get_all].
  - by intros [= <- <-].
  - destruct (call_get σ a) as [[v a']| | | | |] eqn:Ea; cbn; try done.
    destruct (call_get_all σ rest) as [[vs' rest']| | | | |] eqn:Er;
      cbn; try done.
    intros [= <- <-]. rewrite (IH vs' rest' eq_refl).
    change (consumed <$> a :: rest) with (consumed a :: (consumed <$> rest)).
    f_equal.
    destruct a as [v0|t]; cbn in Ea; [by injection Ea as <- <-|].
    destruct (get σ t); cbn in Ea; try done. by injection Ea as <- <-.
Qed.

Lemma call_get_all_consumed σ args :
  existsb is_awaited args = true →
  call_get_all σ (consumed <$> args) = Undefined ub_invalid_future.
Proof.
  induction args as [|a rest IH]; cbn; [done|].
  destruct a as [v|t]; cbn; [|done].
  intros H. by rewrite (IH H).
Qed.

Lemma call_get_all_plain σ σ' args vs args' :
  existsb is_awaited args = false →
  call_get_all σ args = Ok (vs, args') →
  call_get_all σ' args' = Ok (vs, args').
Proof.
  revert vs args'. induction args as [|a rest IH]; intros vs args';
    cbn [call_get_all existsb].
  - by intros _ [= <- <-].
  - destruct a as [v|t]; cbn; [|done]. intros Hp.
    destruct (call_get_all σ rest) as [[vs' rest']| | | | |] eqn:Er;
      cbn; try done.
    intros [= <- <-]. cbn. by rewrite (IH vs' rest' Hp eq_refl).
Qed.

Lemma packaged_task_call_again σ f vs σ' vs' :
  packaged_task_call σ f vs = Ok σ' →
  packaged_task_call σ' f vs'
  = Throw (future_error promise_already_satisfied).
Proof.
  intros H. apply packaged_task_call_inv in H as (s & Hp & _ & ->).
  unfold packaged_task_call. rewrite Hp, lookup_insert_eq.
  by destruct (callable f vs).
Qed.

(** X8. An invocation that returns has resolved the shared state of the
    task's own promise, which was pending until then, and has written
    nothing else in the store. *)
Theorem invoke_resolves_its_promise σ m σ' t' :
  invoke σ {| _t := Some m |} = Ok (σ', t') →
  ∃ s st, promise (packaged m) = Some s
          ∧ σ !! s = Some pending
          ∧ st ≠ pending
          ∧ σ' = <[s := st]> σ.
Proof.
  unfold invoke. cbn [_t].
  destruct (invoke_ σ m) as [[σ1 m1]| | | | |] eqn:E; cbn; try done.
  intros [= <- _]. destruct m as [f args|f args]; cbn in E.
  - unfold apply in E.
    destruct (packaged_task_call σ f args) as [σ2| | | | |] eqn:Ec;
      cbn in E; try done. injection E as <- _.
    apply packaged_task_call_inv in Ec as (s & Hp & Hs & ->).
    exists s. eexists. repeat split; try done. by destruct (callable f args).
  - unfold do_invoke_ in E.
    destruct (call_get_all σ args) as [[vs args']| | | | |]; cbn in E;
      try done.
    destruct (packaged_task_call σ f vs) as [σ2| | | | |] eqn:Ec;
      cbn in E; try done. injection E as <- _.
    apply packaged_task_call_inv in Ec as (s & Hp & Hs & ->).
    exists s. eexists. repeat split; try done. by destruct (callable f vs).
Qed.

Lemma invoke_resolves_its_promise_witness :
  invoke S2_store S2_B.1.2
  = Ok (<[2%nat := has_value 7]> S2_store, S2_B.1.2)
  ∧ ∃ s st, promise (packaged (ready_task_model
                                  {| callable := λ _, returns 7;
                                     promise := Some 2%nat |} [])) = Some s
            ∧ S2_store !! s = Some pending
            ∧ st ≠ pending
            ∧ <[2%nat := has_value 7]> S2_store = <[s := st]> S2_store.
Proof.
  assert (invoke S2_store S2_B.1.2
          = Ok (<[2%nat := has_value 7]> S2_store, S2_B.1.2)) as H
    by reflexivity.
  split; [exact H|].
  exact (invoke_resolves_its_promise S2_store _ _ _ H).
Defined.

(** X9. A task is single shot. After an invocation that returned, a second
    one throws the future error "promise already satisfied" when the task
    has no future among its bound arguments; when it has one, its futures
    have been consumed and a second invocation is undefined, in whatever
    store, while [ready] still answers [true]. *)
Theorem invoke_is_single_shot σ m σ' t' :
  invoke σ {| _t := Some m |} = Ok (σ', t') →
  match m with
  | ready_task_model _ _ =>
      invoke σ' t' = Throw (future_error promise_already_satisfied)
  | awaitable_task_model _ args =>
      if existsb is_awaited args
      then ∀ σ'', invoke σ'' t' = Undefined ub_invalid_future
                  ∧ ready σ'' t' = Ok true
      else invoke σ' t' = Throw (future_error promise_already_satisfied)
  end.
Proof.
  unfold invoke at 1. cbn [_t].
  destruct (invoke_ σ m) as [[σ1 m1]| | | | |] eqn:E; cbn; try done.
  intros [= <- <-]. destruct m as [f args|f args]; cbn in E.
  - unfold apply in E.
    destruct (packaged_task_call σ f args) as [σ2| | | | |] eqn:Ec;
      cbn in E; try done. injection E as <- <-.
    unfold invoke; cbn. unfold apply.
    by rewrite (packaged_task_call_again σ f args σ2 args Ec).
  - unfold do_invoke_ in E.
    destruct (call_get_all σ args) as [[vs args']| | | | |] eqn:Eg;
      cbn in E; try done.
    destruct (packaged_task_call σ f vs) as [σ2| | | | |] eqn:Ec;
      cbn in E; try done. injection E as <- <-.
    destruct (existsb is_awaited args) eqn:Ha.
    + intros σ''. apply call_get_all_consumes in Eg as ->.
      split; [|by rewrite ready_cases].
      unfold invoke; cbn. unfold do_invoke_.
      by rewrite call_get_all_consumed.
    + unfold invoke; cbn. unfold do_invoke_.
      rewrite (call_get_all_plain σ σ2 args vs args' Ha Eg). cbn.
      by rewrite (packaged_task_call_again σ f vs σ2 vs Ec).
Qed.

Lemma invoke_is_single_shot_witness :
  ∃ σ' t',
    invoke (make_awaitable_task sum_store sum_callable
              [awaited (fut 0); plain 5]).1.1
      (make_awaitable_task sum_store sum_callable
         [awaited (fut 0); plain 5]).1.2 = Ok (σ', t')
    ∧ invoke σ' t' = Undefined ub_invalid_future
    ∧ ready σ' t' = Ok true.
Proof.
  assert (∃ σ' t',
            invoke (make_awaitable_task sum_store sum_callable
                      [awaited (fut 0); plain 5]).1.1
              (make_awaitable_task sum_store sum_callable
                 [awaited (fut 0); plain 5]).1.2 = Ok (σ', t'))
    as (σ' & t' & H).
  { eexists _, _. vm_compute. reflexivity. }
  exists σ', t'. split; [exact H|].
  exact (invoke_is_single_shot
           (make_awaitable_task sum_store sum_callable
              [awaited (fut 0); plain 5]).1.1
           (awaitable_task_model
              {| callable := sum_callable; promise := Some 1%nat |}
              [awaited (fut 0); plain 5])
           σ' t' H σ').
Defined.

Lemma call_get_all_values σ args vs :
  arg_values σ args = Some vs →
  ∀ σ1, (∀ s st, σ !! s = Some st → σ1 !! s = Some st) →
        call_get_all σ1 args = Ok (vs, consumed <$> args).
Proof.
  revert vs. induction args as [|a rest IH]; intros vs; cbn [arg_values].
  - by intros [= <-].
  - destruct a as [v|[s|]]; [| |done].
    + destruct (arg_values σ rest) as [vs'|]; cbn; [|done].
      intros [= <-] σ1 Hσ1. by rewrite (IH vs' eq_refl σ1 Hσ1).
    + destruct (σ !! s) as [[|v|]|] eqn:Es; try done.
      destruct (arg_values σ rest) as [vs'|]; cbn; [|done].
      intros [= <-] σ1 Hσ1. rewrite (Hσ1 s _ Es). cbn.
      by rewrite (IH vs' eq_refl σ1 Hσ1).
Qed.

Lemma new_state_fresh (σ : fstore) s st :
  σ !! s = Some st → s ≠ new_state σ.
Proof.
  intros Hs ->. unfold new_state in Hs.
  pose proof (is_fresh (dom σ)) as Hf. apply Hf.
  apply elem_of_dom. by exists st.
Qed.

(** X10. Dataflow: an awaitable task whose futures all hold a value calls
    its callable with the plain arguments and the values of the futures,
    in the order of the arguments; what the callable returns or throws is
    what [get] on the output future answers or rethrows, and the shared
    states of the arguments are as they were. *)
Theorem invoke_awaitable_calls_with_values σ f args vs :
  arg_values σ args = Some vs →
  ∃ σ' t',
    invoke (make_awaitable_task σ f args).1.1
      (make_awaitable_task σ f args).1.2 = Ok (σ', t')
    ∧ get σ' (make_awaitable_task σ f args).2
      = match f vs with
        | returns v => Ok v
        | raises e => Throw e
        end
    ∧ ∀ s st, σ !! s = Some st → σ' !! s = Some st.
Proof.
  intros Hvs. cbn. unfold do_invoke_.
  rewrite (call_get_all_values σ args vs Hvs
             (<[new_state σ := pending]> σ)).
  2: { intros s st Hs. rewrite lookup_insert_ne; [done|].
       intros <-. by eapply new_state_fresh. }
  cbn. unfold packaged_task_call. cbn. rewrite lookup_insert_eq.
  destruct (f vs) as [v|e]; cbn; eexists _, _; (split; [done|]);
    cbn; rewrite lookup_insert_eq; (split; [done|]);
    intros s st Hs; rewrite !lookup_insert_ne; try done;
    intros <-; by eapply new_state_fresh.
Qed.

(** The invocation waits in [get] for the first future that is pending,
    the arguments before it holding values; the callable is not called. *)
(** An evaluation from left to right that yields every value is matched
    by the evaluation from right to left. *)
Lemma call_get_all_rtl_ok σ args r :
  call_get_all σ args = Ok r → call_get_all_rtl σ args = Ok r.
Proof.
  revert r. induction args as [|a rest IH]; intros r; cbn; [done|].
  destruct (call_get σ a) as [[v a']| | | | |]; cbn; try done.
  destruct (call_get_all σ rest) as [[vs rest']| | | | |]; cbn; try done.
  intros [= <-]. by rewrite (IH _ eq_refl).
Qed.

(** From right to left, the arguments behind a pending future are
    evaluated first; when they hold values the pending one is met. *)
Lemma call_get_all_rtl_pending σ pre s post ws :
  arg_values σ post = Some ws → σ !! s = Some pending →
  call_get_all_rtl σ (pre ++ awaited (fut s) :: post) = Blocked on_future.
Proof.
  intros Hpost Hs. induction pre as [|a pre IH]; cbn.
  - rewrite (call_get_all_rtl_ok σ post _
               (call_get_all_values σ post ws Hpost σ (λ _ _ H, H))).
    cbn. by rewrite Hs.
  - by rewrite IH.
Qed.

Lemma invoke_pending_blocks σ f pre s post vs ws :
  arg_values σ pre = Some vs → arg_values σ post = Some ws →
  σ !! s = Some pending →
  invoke σ {| _t := Some (awaitable_task_model f
                            (pre ++ awaited (fut s) :: post)) |}
  = Blocked on_future.
Proof.
  intros Hpre _ Hs. unfold invoke; cbn. unfold do_invoke_.
  assert (call_get_all σ (pre ++ awaited (fut s) :: post) = Blocked on_future)
    as ->; [|done].
  revert vs Hpre. induction pre as [|a pre IH]; intros vs; cbn.
  - intros _. by rewrite Hs.
  - destruct a as [v|[s'|]]; [| |done].
    + destruct (arg_values σ pre) as [vs'|]; cbn; [|done].
      intros _. by rewrite (IH vs' eq_refl).
    + destruct (σ !! s') as [[|v|]|] eqn:Es; try done.
      destruct (arg_values σ pre) as [vs'|]; cbn; [|done].
      intros _. rewrite Es. cbn. by rewrite (IH vs' eq_refl).
Qed.

Lemma invoke_awaitable_calls_with_values_witness :
  arg_values sum_store [awaited (fut 0); plain 5] = Some [1; 5]
  ∧ ∃ σ' t',
      invoke (make_awaitable_task sum_store sum_callable
                [awaited (fut 0); plain 5]).1.1
        (make_awaitable_task sum_store sum_callable
           [awaited (fut 0); plain 5]).1.2 = Ok (σ', t')
      ∧ get σ' (make_awaitable_task sum_store sum_callable
                  [awaited (fut 0); plain 5]).2 = Ok 6.
Proof.
  assert (arg_values sum_store [awaited (fut 0); plain 5] = Some [1; 5])
    as H by (vm_compute; reflexivity).
  split; [exact H|].
  destruct (invoke_awaitable_calls_with_values sum_store sum_callable
              [awaited (fut 0); plain 5] [1; 5] H) as (σ' & t' & H1 & H2 & _).
  exists σ', t'. exact (conj H1 H2).
Defined.

(** * Further properties of the task system *)

Section further.
Context (env : environment).

(** X11. The submissions to the main queue leave the task at the end of
    queue 0 whatever the number of workers, do not touch the dispatch
    counter, and keep the system in order. *)
Theorem on_main_submissions_target_main w :
  system_ok (sys w) →
  (∀ f args,
     ∃ w', push_ready_on_main env w f args
           = Ok (w', (make_ready_task (store w) f args).2)
           ∧ enqueued_at 0 (make_ready_task (store w) f args).1.2
               (sys w) (sys w')
           ∧ current_index_ (sys w') = current_index_ (sys w)
           ∧ system_ok (sys w'))
  ∧ (∀ f args,
       ∃ w', push_awaitable_on_main env w f args
             = Ok (w', (make_awaitable_task (store w) f args).2)
             ∧ enqueued_at 0 (make_awaitable_task (store w) f args).1.2
                 (sys w) (sys w')
             ∧ current_index_ (sys w') = current_index_ (sys w)
             ∧ system_ok (sys w'))
  ∧ (∀ t,
       ∃ w', push_awaitable_on_main_task env w t = Ok w'
             ∧ enqueued_at 0 t (sys w) (sys w')
             ∧ current_index_ (sys w') = current_index_ (sys w)
             ∧ system_ok (sys w')).
Proof.
  intros Hok. pose proof Hok as (_ & _ & _ & _ & Hidx).
  split; [|split].
  - intros f args.
    destruct (push_ready_on_main_spec env w f args Hok)
      as (w' & -> & Henq & Hci & _).
    exists w'. split; [done|]. split; [done|]. split; [done|].
    eapply enqueued_at_system_ok; [exact Hok|exact Henq|by rewrite Hci].
  - intros f args.
    destruct (push_awaitable_on_main_spec env w f args Hok)
      as (w' & -> & Henq & Hci & _).
    exists w'. split; [done|]. split; [done|]. split; [done|].
    eapply enqueued_at_system_ok; [exact Hok|exact Henq|by rewrite Hci].
  - intros t.
    destruct (push_awaitable_on_main_task_spec env w t Hok)
      as (w' & -> & Henq & Hci & _).
    exists w'. split; [done|]. split; [done|]. split; [done|].
    eapply enqueued_at_system_ok; [exact Hok|exact Henq|by rewrite Hci].
Qed.

Lemma at_queue_other {A} w i (op : task_queue -> result (task_queue * A))
  w' a j :
  at_queue w i op = Ok (w', a) → j ≠ Z.to_nat i →
  queues_ (sys w') !! j = queues_ (sys w) !! j.
Proof.
  unfold at_queue. destruct (queues_ (sys w) !! Z.to_nat i) as [q|]; [|done].
  destruct (op q) as [[q' a']| | | | |]; cbn; try done.
  intros [= <- _] Hj. cbn. by rewrite list_lookup_insert_ne.
Qed.

Lemma get_thread_queue_idx_range s idx k qi :
  system_ok s → get_thread_queue_idx s idx k = Ok qi →
  1 ≤ qi ≤ nthreads_ s.
Proof.
  intros (HN & Hsmall & _). unfold get_thread_queue_idx.
  case_decide as H0; [done|]. intros [= <-].
  fold (ring_queue (nthreads_ s) idx k).
  pose proof (ring_queue_range (nthreads_ s) idx k ltac:(lia)).
  rewrite wrap_small; lia.
Qed.

Lemma try_pop_ring_main_untouched n :
  ∀ k idx w w' p,
    system_ok (sys w) → try_pop_ring env n k idx w = Ok (w', p) →
    queues_ (sys w') !! 0%nat = queues_ (sys w) !! 0%nat.
Proof.
  induction n as [|n IH]; intros k idx w w' p Hok; cbn [try_pop_ring].
  - by intros [= <- _].
  - destruct (get_thread_queue_idx _ _ _) as [qi| | | | |] eqn:Eq;
      cbn; try done.
    apply get_thread_queue_idx_range in Eq; [|done].
    destruct (queue_try_pop env w qi) as [[w1 [b t]]| | | | |] eqn:E;
      cbn; try done.
    pose proof (queue_try_pop_system_ok env w qi w1 (b, t) Hok E) as Hok1.
    apply (at_queue_other _ _ _ _ _ 0%nat) in E; [|lia]. cbn in E.
    destruct b; [by intros [= <- _]|].
    intros H. apply IH in H; [|done]. congruence.
Qed.

(** X12. A worker does not touch the main queue: whenever the worker loop
    of a worker index [idx >= 1] returns, queue 0 is as it was. *)
Theorem worker_leaves_main_queue fuel :
  ∀ idx w w',
    system_ok (sys w) → 1 ≤ idx → run env fuel idx w = Ok w' →
    queues_ (sys w') !! 0%nat = queues_ (sys w) !! 0%nat.
Proof.
  induction fuel as [|fuel IH]; intros idx w w' Hok Hidx; cbn [run]; [done|].
  destruct (try_pop_ring env _ 0 idx w) as [[w1 [b t]]| | | | |] eqn:E1;
    cbn; try done.
  pose proof (try_pop_ring_system_ok env _ _ _ _ _ _ Hok E1) as Hok1.
  apply try_pop_ring_main_untouched in E1; [|done].
  destruct b; cbn.
  - destruct (call_task w1 t) as [w3| | | | |] eqn:E3; cbn; try done.
    apply call_task_sys in E3. intros H.
    apply IH in H; [|by rewrite E3|done]. congruence.
  - destruct (queue_pop env fuel w1 idx)
      as [[w2 [b2 t2]]| | | | |] eqn:E2; cbn; try done.
    pose proof (queue_pop_system_ok env _ _ _ _ _ Hok1 E2) as Hok2.
    apply (at_queue_other _ _ _ _ _ 0%nat) in E2; [|lia].
    destruct b2; cbn; [|intros [= <-]; congruence].
    destruct (call_task w2 t2) as [w3| | | | |] eqn:E3; cbn; try done.
    apply call_task_sys in E3. intros H.
    apply IH in H; [|by rewrite E3|done]. congruence.
Qed.

Lemma try_pop_main_others_untouched n :
  ∀ w w' p j,
    try_pop_main env n w = Ok (w', p) → j ≠ 0%nat →
    queues_ (sys w') !! j = queues_ (sys w) !! j.
Proof.
  induction n as [|n IH]; intros w w' p j; cbn [try_pop_main].
  - by intros [= <- _].
  - destruct (queue_try_pop env w get_main_thread_queue_idx)
      as [[w1 [b t]]| | | | |] eqn:E; cbn; try done.
    intros H Hj. apply (at_queue_other _ _ _ _ _ j) in E; [|done].
    cbn in E. destruct b; [injection H as <- _; done|].
    apply (IH _ _ _ j) in H; [|done]. congruence.
Qed.

(** X13. [run_on_main] touches no queue but queue 0. *)
Theorem main_drain_leaves_worker_queues fuel w w' j :
  run_on_main env fuel w = Ok w' → j ≠ 0%nat →
  queues_ (sys w') !! j = queues_ (sys w) !! j.
Proof.
  unfold run_on_main. intros H Hj.
  destruct (try_pop_main env 10 w) as [[w1 [b t]]| | | | |] eqn:E1;
    cbn in H; try done.
  apply (try_pop_main_others_untouched _ _ _ _ j) in E1; [|done].
  destruct b; cbn in H.
  - apply call_task_sys in H. congruence.
  - destruct (queue_pop env fuel w1 get_main_thread_queue_idx)
      as [[w2 [b2 t2]]| | | | |] eqn:E2; cbn in H; try done.
    apply (at_queue_other _ _ _ _ _ j) in E2; [|done].
    destruct b2; cbn in H; [|injection H as <-; congruence].
    apply call_task_sys in H. congruence.
Qed.

Lemma try_pop_ring_empty n :
  ∀ k idx w,
    system_ok (sys w) → 1 ≤ nthreads_ (sys w) →
    Forall (λ q, tasks_ q = []) (queues_ (sys w)) →
    try_pop_ring env n k idx w = Ok (Nat.iter n tick w, (false, empty_task)).
Proof.
  induction n as [|n IH]; intros k idx w Hok HN Hall; [done|].
  cbn [try_pop_ring]. pose proof Hok as (_ & Hsmall & _).
  rewrite get_thread_queue_idx_ring by done.
  cbn [mbind result_mbind result_bind].
  pose proof (ring_queue_range (nthreads_ (sys w)) idx k HN) as Hr.
  destruct (system_ok_queue (sys w) (ring_queue (nthreads_ (sys w)) idx k) Hok)
    as (q & Hq & _); [lia|].
  rewrite (queue_try_pop_empty env w _ q Hq).
  2: { rewrite Forall_lookup in Hall. by eapply Hall. }
  cbn [mbind result_mbind result_bind fst].
  rewrite (IH (wrap (k + 1)) idx (tick w) Hok HN Hall).
  by rewrite iter_tick_succ.
Qed.

(** X14. A worker that finds every queue empty makes its 10 N [try_pop]
    and then turns to its home queue: it waits on the condition variable,
    or, when the queue is done, the worker loop returns, no task having
    been invoked. *)
Theorem idle_worker_waits_or_exits fuel idx w q :
  system_ok (sys w) → 1 ≤ nthreads_ (sys w) →
  Forall (λ q, tasks_ q = []) (queues_ (sys w)) →
  queues_ (sys w) !! Z.to_nat idx = Some q →
  run env (S fuel) idx w
  = if done_ q
    then Ok (Nat.iter (Z.to_nat (10 * nthreads_ (sys w))) tick w)
    else Blocked on_condition_variable.
Proof.
  intros Hok HN Hall Hq. cbn [run]. pose proof Hok as (_ & Hsmall & _).
  rewrite (wrap_small (10 * nthreads_ (sys w))) by lia.
  rewrite (try_pop_ring_empty _ 0 idx w Hok HN Hall).
  cbn [mbind result_mbind result_bind fst].
  unfold queue_pop, at_queue. rewrite sys_iter_tick, Hq.
  assert (tasks_ q = []) as E.
  { rewrite Forall_lookup in Hall. by eapply Hall. }
  unfold pop. rewrite E. destruct (done_ q); cbn; [|done].
  f_equal. apply set_queue_same. by rewrite sys_iter_tick.
Qed.

Lemma queue_try_pop_contended w i q :
  queues_ (sys w) !! Z.to_nat i = Some q →
  try_to_lock env (clock w) = false →
  queue_try_pop env w i = Ok (tick w, (false, empty_task)).
Proof.
  intros Hq Hl. unfold queue_try_pop, at_queue, try_pop. cbn.
  rewrite Hq, Hl. cbn. by rewrite (set_queue_same (tick w) i q).
Qed.

Lemma queue_try_pop_head w i q m t rest :
  queues_ (sys w) !! Z.to_nat i = Some q → tasks_ q = (m, t) :: rest →
  try_to_lock env (clock w) = true →
  queue_try_pop env w i
  = Ok (set_queue (tick w) i (set_tasks q rest), (true, t)).
Proof.
  intros Hq E Hl. unfold queue_try_pop, at_queue, try_pop. cbn.
  by rewrite Hq, Hl, E.
Qed.

(** The [try_pop] loop of [run_on_main] on a queue with a head: the first
    attempt that gets the mutex takes the head, ready or not. *)
Lemma try_pop_main_head n :
  ∀ w q m t rest,
    queues_ (sys w) !! 0%nat = Some q → tasks_ q = (m, t) :: rest →
    match first_success (try_to_lock env) n (clock w) with
    | Some c =>
        ∃ w', try_pop_main env n w = Ok (w', (true, t))
              ∧ queues_ (sys w') = <[0%nat := set_tasks q rest]> (queues_ (sys w))
              ∧ store w' = store w ∧ invoked w' = invoked w
    | None =>
        try_pop_main env n w = Ok (Nat.iter n tick w, (false, empty_task))
    end.
Proof.
  induction n as [|n IH]; intros w q m t rest Hq E; [done|].
  cbn [first_success try_pop_main]. unfold get_main_thread_queue_idx.
  destruct (try_to_lock env (clock w)) eqn:Hl.
  - rewrite (queue_try_pop_head w 0 q m t rest Hq E Hl).
    cbn [mbind result_mbind result_bind fst].
    eexists. split; [done|]. by cbn.
  - rewrite (queue_try_pop_contended w 0 q Hq Hl).
    cbn [mbind result_mbind result_bind fst].
    specialize (IH (tick w) q m t rest Hq E). cbn [clock tick] in IH.
    destruct (first_success (try_to_lock env) n (S (clock w))) as [c|].
    + destruct IH as (w' & -> & Hrest). by exists w'.
    + rewrite IH. by rewrite iter_tick_succ.
Qed.

(** X15. [run_on_main] on a main queue whose head is ready: the head is
    taken out, by a [try_pop] or by the [pop], and invoked; the queue
    keeps the tasks behind it. *)
Theorem run_on_main_runs_ready_head fuel w q m t rest σ' t' :
  queues_ (sys w) !! 0%nat = Some q → tasks_ q = (m, t) :: rest →
  ready (store w) t = Ok true → invoke (store w) t = Ok (σ', t') →
  ∃ w', run_on_main env fuel w = Ok w'
        ∧ queues_ (sys w') = <[0%nat := set_tasks q rest]> (queues_ (sys w))
        ∧ store w' = σ'
        ∧ invoked w' = invoked w ++ [t].
Proof.
  intros Hq E Hr Hinv. unfold run_on_main.
  pose proof (try_pop_main_head 10 w q m t rest Hq E) as Hmain.
  destruct (first_success _ _ _) as [c|].
  - destruct Hmain as (w1 & -> & Hqs & Hst & Hi).
    cbn [mbind result_mbind result_bind fst snd].
    unfold call_task. rewrite Hst, Hinv. cbn.
    eexists. split; [done|]. cbn. by rewrite Hi.
  - rewrite Hmain. cbn [mbind result_mbind result_bind fst].
    unfold queue_pop, at_queue, get_main_thread_queue_idx.
    change (Z.to_nat 0) with 0%nat. rewrite sys_iter_tick, Hq.
    rewrite store_iter_tick.
    rewrite (pop_head_ready (store w) (later env) fuel q m t rest E Hr).
    cbn [mbind result_mbind result_bind fst snd].
    unfold call_task. cbn [store set_queue set_sys].
    rewrite store_iter_tick, Hinv. cbn.
    eexists. split; [done|]. cbn.
    rewrite ?sys_iter_tick, ?invoked_iter_tick. done.
Qed.

(** X16. [run_on_main] on a main queue whose head is an awaitable task
    with a pending future among bound arguments that otherwise hold
    values: [ready] answers [true] of the head, the head is taken out, by
    a [try_pop] or by the [pop], and invoked all the same, and
    [run_on_main] waits in [get]; evaluated from right to left, the
    arguments of the head meet the pending future as well. *)
Theorem run_on_main_waits_in_get fuel w q m f pre s post rest vs vs' :
  queues_ (sys w) !! 0%nat = Some q →
  tasks_ q
  = (m, {| _t := Some (awaitable_task_model f
                         (pre ++ awaited (fut s) :: post)) |}) :: rest →
  arg_values (store w) pre = Some vs → arg_values (store w) post = Some vs' →
  store w !! s = Some pending →
  ready (store w)
    {| _t := Some (awaitable_task_model f (pre ++ awaited (fut s) :: post)) |}
  = Ok true
  ∧ call_get_all_rtl (store w) (pre ++ awaited (fut s) :: post)
    = Blocked on_future
  ∧ run_on_main env fuel w = Blocked on_future.
Proof.
  intros Hq E Hpre Hpost Hs.
  pose proof (invoke_pending_blocks (store w) f pre s post vs vs'
                Hpre Hpost Hs) as Hinv.
  split; [by rewrite ready_cases|].
  split; [by apply (call_get_all_rtl_pending _ pre s post vs')|].
  unfold run_on_main.
  pose proof (try_pop_main_head 10 w q m _ rest Hq E) as Hmain.
  destruct (first_success _ _ _) as [c|].
  - destruct Hmain as (w1 & -> & Hqs & Hst & Hi).
    cbn [mbind result_mbind result_bind fst snd].
    unfold call_task. by rewrite Hst, Hinv.
  - rewrite Hmain. cbn [mbind result_mbind result_bind fst].
    unfold queue_pop, at_queue, get_main_thread_queue_idx.
    change (Z.to_nat 0) with 0%nat. rewrite sys_iter_tick, Hq.
    rewrite store_iter_tick.
    rewrite (pop_head (store w) (later env) fuel q m _ rest E).
    cbn [_t mbind result_mbind result_bind fst snd].
    unfold call_task. cbn [store set_queue set_sys].
    by rewrite store_iter_tick, Hinv.
Qed.

End further.

Lemma dispatch_queue_free w :
  system_ok (sys w) → 1 ≤ nthreads_ (sys w) →
  dispatch_queue free_env w
  = current_index_ (sys w) mod nthreads_ (sys w) + 1.
Proof.
  intros (_ & _ & _ & _ & Hidx) HN. unfold dispatch_queue.
  destruct (Z.to_nat (10 * nthreads_ (sys w))) as [|n] eqn:En; [lia|].
  cbn. rewrite Nat.sub_diag. unfold ring_queue.
  by rewrite Z.add_0_r, wrap_small.
Qed.

(** X17. Round robin: when no mutex is held by anyone else, a submission
    goes to queue [(idx mod N) + 1] at its first attempt, and the next one
    to the queue of [idx + 1]. *)
Theorem uncontended_submissions_round_robin w t1 t2 :
  system_ok (sys w) → 1 ≤ nthreads_ (sys w) →
  ∃ w1 w2,
    push_awaitable_task free_env w t1 = Ok w1
    ∧ push_awaitable_task free_env w1 t2 = Ok w2
    ∧ enqueued_at (current_index_ (sys w) mod nthreads_ (sys w) + 1)
        t1 (sys w) (sys w1)
    ∧ enqueued_at
        (wrap (current_index_ (sys w) + 1) mod nthreads_ (sys w) + 1)
        t2 (sys w1) (sys w2)
    ∧ current_index_ (sys w2) = wrap (wrap (current_index_ (sys w) + 1) + 1).
Proof.
  intros Hok HN.
  destruct (dispatch_spec free_env t1 w Hok HN)
    as (w1 & Hrun1 & Henq1 & Hci1 & _).
  rewrite (dispatch_queue_free w Hok HN) in Henq1.
  assert (system_ok (sys w1)) as Hok1.
  { eapply enqueued_at_system_ok; [exact Hok|exact Henq1|].
    rewrite Hci1. apply wrap_range. }
  assert (nthreads_ (sys w1) = nthreads_ (sys w)) as HN1.
  { by destruct Henq1 as (? & ? & _ & _ & _ & _ & _ & _ & ->). }
  destruct (dispatch_spec free_env t2 w1 Hok1 ltac:(lia))
    as (w2 & Hrun2 & Henq2 & Hci2 & _).
  rewrite (dispatch_queue_free w1 Hok1 ltac:(lia)), HN1, Hci1 in Henq2.
  exists w1, w2. unfold push_awaitable_task.
  rewrite !decide_False by lia. rewrite Hci2, Hci1. done.
Qed.

(** X18. The ring of a worker-targeted submission or of a worker reaches
    every worker queue within N attempts, and only worker queues: each
    queue index from 1 to N is the one of some attempt [k < N]. *)
Theorem ring_visits_every_worker_queue s idx j :
  1 ≤ nthreads_ s → 10 * nthreads_ s < 2 ^ 64 →
  0 ≤ idx → idx + nthreads_ s ≤ 2 ^ 64 → 1 ≤ j ≤ nthreads_ s →
  ∃ k, 0 ≤ k < nthreads_ s ∧ get_thread_queue_idx s idx k = Ok j.
Proof.
  intros HN Hsmall Hidx Hfit Hj.
  exists ((j - 1 - idx) mod nthreads_ s).
  pose proof (Z.mod_pos_bound (j - 1 - idx) (nthreads_ s) ltac:(lia)) as Hk.
  split; [lia|]. rewrite get_thread_queue_idx_ring by done.
  f_equal. rewrite ring_queue_no_wrap by lia.
  rewrite Z.add_mod_idemp_r by lia.
  replace (idx + (j - 1 - idx)) with (j - 1) by lia.
  rewrite Z.mod_small; lia.
Qed.

(** X19. [done ()] sets the flag of every queue and leaves the tasks and
    the tail cursors where they are; a second [done ()] changes nothing. *)
Theorem done_is_idempotent_and_keeps_tasks s :
  done (done s) = done s
  ∧ Forall (λ q, done_ q = true) (queues_ (done s))
  ∧ tasks_ <$> queues_ (done s) = tasks_ <$> queues_ s
  ∧ last_ <$> queues_ (done s) = last_ <$> queues_ s
  ∧ nthreads_ (done s) = nthreads_ s
  ∧ current_index_ (done s) = current_index_ s.
Proof.
  split; [|split; [|split; [|split]]]; [| | | |done].
  - unfold done. cbn. f_equal. rewrite <- list_fmap_compose.
    by apply list_fmap_ext.
  - cbn. apply Forall_fmap. by apply Forall_true.
  - cbn. rewrite <- list_fmap_compose. by apply list_fmap_ext.
  - cbn. rewrite <- list_fmap_compose. by apply list_fmap_ext.
Qed.

(** ** The further statements at concrete worlds *)

Lemma on_main_submissions_target_main_witness :
  system_ok (sys (world_new 2))
  ∧ ∃ w', push_awaitable_on_main_task (busy_env 4) (world_new 2) S2_B.1.2
          = Ok w'
          ∧ enqueued_at 0 S2_B.1.2 (sys (world_new 2)) (sys w').
Proof.
  assert (system_ok (sys (world_new 2))) as Hok.
  { split; [vm_compute; congruence|]. split; [reflexivity|].
    split; [reflexivity|]. split; [|split; vm_compute; congruence].
    repeat constructor. }
  split; [exact Hok|].
  destruct (proj2 (proj2 (on_main_submissions_target_main (busy_env 4)
                            (world_new 2) Hok)) S2_B.1.2)
    as (w' & H1 & H2 & _).
  exists w'. exact (conj H1 H2).
Defined.

Lemma worker_leaves_main_queue_witness :
  system_ok (sys world_busy)
  ∧ 1 ≤ 1
  ∧ run free_env 2 1 world_busy = Ok world_busy_after_run
  ∧ invoked world_busy_after_run = [S2_C.1.2]
  ∧ queues_ (sys world_busy) !! 0%nat = Some (set_done S2_queue_B)
  ∧ queues_ (sys world_busy_after_run) !! 0%nat
    = queues_ (sys world_busy) !! 0%nat.
Proof.
  assert (system_ok (sys world_busy)) as Hok.
  { split; [vm_compute; congruence|]. split; [reflexivity|].
    split; [reflexivity|]. split; [|split; vm_compute; congruence].
    constructor; [|constructor; [|constructor]].
    - apply (queue_ok_snoc [] 1%nat S2_B.1.2 true);
        [apply NoDup_nil_2|apply not_elem_of_nil].
    - apply (queue_ok_snoc [] 1%nat S2_C.1.2 true);
        [apply NoDup_nil_2|apply not_elem_of_nil]. }
  assert (1 ≤ 1) as H1 by lia.
  assert (run free_env 2 1 world_busy = Ok world_busy_after_run) as Hrun
    by (vm_compute; reflexivity).
  split; [exact Hok|]. split; [exact H1|]. split; [exact Hrun|].
  split; [reflexivity|]. split; [reflexivity|].
  exact (worker_leaves_main_queue free_env 2 1 world_busy
           world_busy_after_run Hok H1 Hrun).
Defined.

Lemma main_drain_leaves_worker_queues_witness :
  run_on_main free_env 1 world_busy = Ok world_busy_after_run_on_main
  ∧ invoked world_busy_after_run_on_main = [S2_B.1.2]
  ∧ queues_ (sys world_busy) !! 1%nat = Some (set_done S2_queue_C)
  ∧ queues_ (sys world_busy_after_run_on_main) !! 1%nat
    = queues_ (sys world_busy) !! 1%nat.
Proof.
  assert (run_on_main free_env 1 world_busy
          = Ok world_busy_after_run_on_main) as Hrun
    by (vm_compute; reflexivity).
  split; [exact Hrun|]. split; [reflexivity|]. split; [reflexivity|].
  exact (main_drain_leaves_worker_queues free_env 1 world_busy
           world_busy_after_run_on_main 1%nat Hrun ltac:(lia)).
Defined.

Lemma idle_worker_waits_or_exits_witness :
  system_ok (sys world_done_1)
  ∧ 1 ≤ nthreads_ (sys world_done_1)
  ∧ Forall (λ q, tasks_ q = []) (queues_ (sys world_done_1))
  ∧ run (busy_env 4) 1 1 world_done_1 = Ok (Nat.iter 10 tick world_done_1).
Proof.
  assert (system_ok (sys world_done_1)) as Hok.
  { split; [vm_compute; congruence|]. split; [reflexivity|].
    split; [reflexivity|]. split; [|split; vm_compute; congruence].
    repeat constructor. }
  assert (1 ≤ nthreads_ (sys world_done_1)) as HN by (vm_compute; congruence).
  assert (Forall (λ q, tasks_ q = []) (queues_ (sys world_done_1))) as Hall
    by (repeat constructor).
  split; [exact Hok|]. split; [exact HN|]. split; [exact Hall|].
  exact (idle_worker_waits_or_exits (busy_env 4) 0 1 world_done_1
           (set_done new_task_queue) Hok HN Hall eq_refl).
Defined.

Lemma run_on_main_runs_ready_head_witness :
  ready (store (world_main S2_queue_B)) S2_B.1.2 = Ok true
  ∧ ∃ w', run_on_main (busy_env 4) 1 (world_main S2_queue_B) = Ok w'
          ∧ queues_ (sys w')
            = <[0%nat := set_tasks S2_queue_B []]>
                (queues_ (sys (world_main S2_queue_B)))
          ∧ store w' = <[2%nat := has_value 7]> S2_store
          ∧ invoked w' = [S2_B.1.2].
Proof.
  split; [reflexivity|].
  exact (run_on_main_runs_ready_head (busy_env 4) 1 (world_main S2_queue_B)
           S2_queue_B 1%nat S2_B.1.2 [] (<[2%nat := has_value 7]> S2_store)
           S2_B.1.2 eq_refl eq_refl eq_refl eq_refl).
Defined.

Lemma run_on_main_waits_in_get_witness :
  store (world_main S2_queue_A) !! 0%nat = Some pending
  ∧ ready (store (world_main S2_queue_A)) S2_A.1.2 = Ok true
  ∧ call_get_all_rtl (store (world_main S2_queue_A)) [awaited (fut 0)]
    = Blocked on_future
  ∧ run_on_main (busy_env 100) 1 (world_main S2_queue_A) = Blocked on_future.
Proof.
  assert (store (world_main S2_queue_A) !! 0%nat = Some pending) as Hs
    by (vm_compute; reflexivity).
  split; [exact Hs|].
  exact (run_on_main_waits_in_get (busy_env 100) 1
           (world_main S2_queue_A) S2_queue_A 1%nat
           {| callable := identity_callable; promise := Some 1%nat |}
           [] 0%nat [] [] [] [] eq_refl eq_refl eq_refl eq_refl Hs).
Defined.

Lemma uncontended_submissions_round_robin_witness :
  system_ok (sys (world_new 2))
  ∧ 1 ≤ nthreads_ (sys (world_new 2))
  ∧ ∃ w1 w2,
      push_awaitable_task free_env (world_new 2) S2_A.1.2 = Ok w1
      ∧ push_awaitable_task free_env w1 S2_B.1.2 = Ok w2
      ∧ enqueued_at (1 mod 2 + 1) S2_A.1.2 (sys (world_new 2)) (sys w1)
      ∧ enqueued_at (wrap (1 + 1) mod 2 + 1) S2_B.1.2 (sys w1) (sys w2).
Proof.
  assert (system_ok (sys (world_new 2))) as Hok.
  { split; [vm_compute; congruence|]. split; [reflexivity|].
    split; [reflexivity|]. split; [|split; vm_compute; congruence].
    repeat constructor. }
  assert (1 ≤ nthreads_ (sys (world_new 2))) as HN by (vm_compute; congruence).
  split; [exact Hok|]. split; [exact HN|].
  destruct (uncontended_submissions_round_robin (world_new 2)
              S2_A.1.2 S2_B.1.2 Hok HN) as (w1 & w2 & H1 & H2 & H3 & H4 & _).
  exists w1, w2. exact (conj H1 (conj H2 (conj H3 H4))).
Defined.

Lemma ring_visits_every_worker_queue_witness :
  ∃ k, 0 ≤ k < 3 ∧ get_thread_queue_idx (awaitable_task_system_new 3) 1 k = Ok 1.
Proof.
  assert (1 ≤ nthreads_ (awaitable_task_system_new 3)) as HN by (cbn; lia).
  assert (10 * nthreads_ (awaitable_task_system_new 3) < 2 ^ 64) as Hsmall
    by (cbn; lia).
  assert (1 + nthreads_ (awaitable_task_system_new 3) ≤ 2 ^ 64) as Hfit
    by (cbn; lia).
  assert (1 ≤ 1 ≤ nthreads_ (awaitable_task_system_new 3)) as Hj
    by (cbn; lia).
  exact (ring_visits_every_worker_queue (awaitable_task_system_new 3) 1 1
           HN Hsmall ltac:(lia) Hfit Hj).
Defined.
